(** * Monte Carlo option pricing engine: models, schemes, mediator, pricers

    A shallow embedding of the simulation engine (SDE.hpp, Fdm.hpp, Rng.hpp,
    MCMediator.hpp, Pricers.hpp, OptionData.hpp) and the proofs of its
    specified properties.

    Numbers.  A C++ [double] is modelled by a real number: rounding,
    infinities and NaN are outside the model.  [std::exp] and [std::sqrt]
    are the real exponential and square root, [std::pow] on a positive base
    is [Rpower], [std::log] on a positive number is [ln], [std::cos] is
    [cos].  An [int] is a [Z] and a [size_t] index a [nat]; the
    overflow of a counter, which takes 2^31 paths, is left out, and the
    overflow of [NT + 1] in the constructor of a scheme is an error.

    Rounding.  A theorem over the real numbers follows what the code
    computes: a formula, a trace, a comparison that rounding preserves.
    The time grid of a scheme is an accumulated sum, and what can be said
    of its points depends on the rounding of each addition: for the grid
    the constructor is embedded a second time, in [Module Double], over
    the kernel's binary64 numbers (IEEE 754, rounding to nearest even).

    Undefined behaviour.  What C++ leaves undefined has no value in the
    model and is reported as an error: an access outside a vector
    ([operator[]], [back()] on an empty vector), a resize to a negative
    length, and a division whose divisor is zero (for which IEEE arithmetic
    would deliver an infinity or a NaN).  The only divisions that are not
    checked are those by a power, which is positive, and by the constant 2.

    Effects.  A member function that changes its object returns the object
    after the call.  A generator is a state with a function that draws a
    variate and gives the next state.  What the mediator does outside itself
    (the calls of the generator, the signals) is recorded in order in a
    trace.  The printing of progress and prices and the stopwatch are left
    out. *)

From Stdlib Require Uint63.
From Stdlib Require Import PrimFloat.
From Stdlib Require Import Reals Lra Lia ZArith List Bool Permutation.
Import ListNotations.

Set Warnings "-inexact-float".

Open Scope R_scope.

(** ** Errors and results *)

Inductive error : Set :=
| OutOfBounds      (* operator[] or back() outside the vector *)
| LengthError      (* resize to a negative length *)
| DivisionByZero   (* x / 0 *)
| Overflow.        (* an int expression above INT_MAX *)

Inductive result (A : Type) : Type :=
| Ok  (a : A)
| Err (e : error).

Arguments Ok {A} a.
Arguments Err {A} e.

Definition bind {A B : Type} (m : result A) (f : A -> result B) : result B :=
  match m with
  | Ok a => f a
  | Err e => Err e
  end.

Notation "'let*' x ':=' m 'in' k" := (bind m (fun x => k))
  (at level 10, x pattern, m at level 100, k at level 200).

(** [a + b] on [int]s: a sum above [INT_MAX] overflows.  (The sums of the
    code add 1, and do not fall below [INT_MIN].) *)
Definition INT_MAX : Z := 2147483647.

Definition int_add (a b : Z) : result Z :=
  if (INT_MAX <? a + b)%Z then Err Overflow else Ok (a + b)%Z.

(** [x / y] with the divisor checked. *)
Definition fdiv (x y : R) : result R :=
  if Req_dec_T y 0 then Err DivisionByZero else Ok (x / y).

(** Comparisons of doubles as booleans. *)
Definition Rgeb (x y : R) : bool := if Rge_dec x y then true else false.
Definition Rgtb (x y : R) : bool := if Rgt_dec x y then true else false.
Definition Rleb (x y : R) : bool := if Rle_dec x y then true else false.

(** ** std::vector<double> *)

Module Vec.

Definition t := list R.

(** [v[n]] *)
Definition at_ (v : t) (n : nat) : result R :=
  match nth_error v n with
  | Some x => Ok x
  | None => Err OutOfBounds
  end.

(** [v.back()] *)
Definition back (v : t) : result R :=
  match v with
  | [] => Err OutOfBounds
  | _ :: _ => Ok (last v 0)
  end.

(** [v.front()] *)
Definition front (v : t) : result R :=
  match v with
  | [] => Err OutOfBounds
  | x :: _ => Ok x
  end.

(** [v[n] = a] *)
Fixpoint assign (v : t) (n : nat) (a : R) : result t :=
  match v, n with
  | [], _ => Err OutOfBounds
  | _ :: v', O => Ok (a :: v')
  | x :: v', S n' => let* w := assign v' n' a in Ok (x :: w)
  end.

(** [v.resize(n)] on a vector that is empty, [n] an [int] expression. *)
Definition resize (n : Z) : result t :=
  if (n <? 0)%Z then Err LengthError else Ok (repeat 0 (Z.to_nat n)).

(** [std::accumulate(v.begin(), v.end(), 0.0)] *)
Definition accumulate (v : t) : R := fold_left Rplus v 0.

End Vec.

(** ** SDE.hpp: stochastic models *)

(** The interface [ISde], as the table of its virtual functions. *)
Module ISde.

Record t : Type := {
  Drift : R -> R -> R;
  Diffusion : R -> R -> R;
  DriftCorrected : R -> R -> R -> R;
  DiffusionDerivative : R -> R -> R;
  InitialCondition : R;
  Expiry : R
}.

End ISde.

Module GBM.

Record t : Type := {
  mu : R;
  vol : R;
  div : R;
  ic : R;
  exp : R
}.

Definition ctor (driftCoefficient diffusionCoefficient dividendYield
                 initialCondition expiry : R) : t :=
  {| mu := driftCoefficient; vol := diffusionCoefficient;
     div := dividendYield; ic := initialCondition; exp := expiry |}.

Definition Drift (s : t) (x t : R) : R := (mu s - div s) * x.

Definition Diffusion (s : t) (x t : R) : R := vol s * x.

Definition DiffusionDerivative (s : t) (x t : R) : R := vol s.

Definition DriftCorrected (s : t) (x t B : R) : R :=
  Drift s x t - B * Diffusion s x t * DiffusionDerivative s x t.

Definition InitialCondition (s : t) : R := ic s.

Definition Expiry (s : t) : R := exp s.

(** A [GBM] seen through a pointer to [ISde]. *)
Definition as_ISde (s : t) : ISde.t :=
  {| ISde.Drift := Drift s;
     ISde.Diffusion := Diffusion s;
     ISde.DriftCorrected := DriftCorrected s;
     ISde.DiffusionDerivative := DiffusionDerivative s;
     ISde.InitialCondition := InitialCondition s;
     ISde.Expiry := Expiry s |}.

End GBM.

Module CEV.

Record t : Type := {
  mu : R;
  vol : R;
  d : R;
  b : R;
  ic : R;
  exp : R
}.

(** [vol] is assigned in the constructor's body, after the initial
    condition has been stored. *)
Definition ctor (driftCoefficient diffusionCoefficient dividendYield
                 initialCondition expiry beta : R) : t :=
  {| mu := driftCoefficient;
     vol := diffusionCoefficient * Rpower initialCondition (1.0 - beta);
     d := dividendYield; b := beta;
     ic := initialCondition; exp := expiry |}.

Definition Drift (s : t) (x t : R) : R := (mu s - d s) * x.

Definition Diffusion (s : t) (x t : R) : R := vol s * Rpower x (b s).

Definition DiffusionDerivative (s : t) (x t : R) : R :=
  if Rgtb (b s) 1.0
  then vol s * b s * Rpower x (b s - 1.0)
  else vol s * b s / Rpower x (1.0 - b s).

Definition DriftCorrected (s : t) (x t B : R) : R :=
  Drift s x t - B * Diffusion s x t * DiffusionDerivative s x t.

Definition InitialCondition (s : t) : R := ic s.

Definition Expiry (s : t) : R := exp s.

Definition as_ISde (s : t) : ISde.t :=
  {| ISde.Drift := Drift s;
     ISde.Diffusion := Diffusion s;
     ISde.DriftCorrected := DriftCorrected s;
     ISde.DiffusionDerivative := DiffusionDerivative s;
     ISde.InitialCondition := InitialCondition s;
     ISde.Expiry := Expiry s |}.

End CEV.

(** ** Fdm.hpp: one-step schemes *)

Module FdmBase.

Record t : Type := {
  sde : ISde.t;
  dtSqrt : R;
  NT : Z;
  x : Vec.t;
  k : R
}.

(** The constructor's loop [for (int n = 1; n < NT + 1; n++)
    x[n] = x[n - 1] + k;], [trips] being the iterations left. *)
Fixpoint fill (trips n : nat) (k : R) (x : Vec.t) : result Vec.t :=
  match trips with
  | O => Ok x
  | S trips' =>
      let* prev := Vec.at_ x (n - 1) in
      let* x' := Vec.assign x n (prev + k) in
      fill trips' (S n) k x'
  end.

Definition ctor (stochasticEquation : ISde.t) (numSubdivisions : Z)
  : result t :=
  let sde := stochasticEquation in
  let NT := numSubdivisions in
  let* k := fdiv (ISde.Expiry sde) (IZR NT) in
  let dtSqrt := sqrt k in
  let* size := int_add NT 1 in
  let* x := Vec.resize size in
  let* x := Vec.assign x 0 0.0 in
  let* x := fill (Z.to_nat NT) 1 k x in
  Ok {| sde := sde; dtSqrt := dtSqrt; NT := NT; x := x; k := k |}.

(** The getter and the setter [StochasticEquation]. *)
Definition StochasticEquation (f : t) : ISde.t := sde f.

Definition set_StochasticEquation (f : t) (ssde : ISde.t) : t :=
  {| sde := ssde; dtSqrt := dtSqrt f; NT := NT f; x := x f; k := k f |}.

End FdmBase.

(** The interface of the schemes: the [FdmBase] part every scheme has, and
    the virtual [advance]. *)
Class IFdm (F : Type) : Type := {
  base : F -> FdmBase.t;
  advance : F -> R -> R -> R -> R -> R
}.

Module EulerFdm.

Record t : Type := { fdmBase : FdmBase.t }.

Definition ctor (stochasticEquation : ISde.t) (numSubdivisions : Z)
  : result t :=
  let* b := FdmBase.ctor stochasticEquation numSubdivisions in
  Ok {| fdmBase := b |}.

Definition advance (f : t) (xn tn dt normalVar : R) : R :=
  let sde := FdmBase.sde (fdmBase f) in
  let dtSqrt := FdmBase.dtSqrt (fdmBase f) in
  xn + ISde.Drift sde xn tn * dt + ISde.Diffusion sde xn tn * dtSqrt * normalVar.

End EulerFdm.

Module ExactFdm.

Record t : Type := {
  fdmBase : FdmBase.t;
  S0 : R;
  sig : R;
  mu : R
}.

Definition ctor (stochasticEquation : ISde.t) (numSubdivisions : Z)
                (S0 vol drift : R) : result t :=
  let* b := FdmBase.ctor stochasticEquation numSubdivisions in
  Ok {| fdmBase := b; S0 := S0; sig := vol; mu := drift |}.

Definition advance (f : t) (xn tn dt normalVar : R) : R :=
  let alpha := 0.5 * sig f * sig f in
  S0 f * exp ((mu f - alpha) * (tn + dt) + sig f * sqrt (tn + dt) * normalVar).

End ExactFdm.

Module MilsteinFdm.

Record t : Type := { fdmBase : FdmBase.t }.

Definition ctor (stochasticEquation : ISde.t) (numSubdivisions : Z)
  : result t :=
  let* b := FdmBase.ctor stochasticEquation numSubdivisions in
  Ok {| fdmBase := b |}.

Definition advance (f : t) (xn tn dt normalVar : R) : R :=
  let sde := FdmBase.sde (fdmBase f) in
  let dtSqrt := FdmBase.dtSqrt (fdmBase f) in
  xn + ISde.Drift sde xn tn * dt + ISde.Diffusion sde xn tn * dtSqrt * normalVar
  + 0.5 * dt * ISde.Diffusion sde xn tn * ISde.DiffusionDerivative sde xn tn
    * (normalVar * normalVar - 1.0).

End MilsteinFdm.

(** The schemes below keep scratch members ([VMid], [F1], [G1], ...) that
    [advance] assigns before it reads them: [advance] returns its value
    together with the scheme as the call leaves it. *)

Module DiscreteMilsteinFdm.

Record t : Type := { fdmBase : FdmBase.t }.

Definition ctor (stochasticEquation : ISde.t) (numSubdivisions : Z)
  : result t :=
  let* b := FdmBase.ctor stochasticEquation numSubdivisions in
  Ok {| fdmBase := b |}.

Definition advance (f : t) (xn tn dt normalVar : R) : R :=
  let sde := FdmBase.sde (fdmBase f) in
  let dt1 := dt in
  let sqrt_ := sqrt dt1 in
  let a := ISde.Drift sde xn tn in
  let b := ISde.Diffusion sde xn tn in
  let Yn := xn + a * dt1 + b * sqrt_ in
  xn + a * dt1 + b * sqrt_ * normalVar
  + 0.5 * sqrt_ * (ISde.Diffusion sde Yn tn - b) * (normalVar * normalVar - 1.0).

End DiscreteMilsteinFdm.

Module PredictorCorrectorFdm.

Record t : Type := { fdmBase : FdmBase.t; A : R; B : R; VMid : R }.

Definition ctor (stochasticEquation : ISde.t) (numSubdivisions : Z)
                (a b : R) : result t :=
  let* base := FdmBase.ctor stochasticEquation numSubdivisions in
  Ok {| fdmBase := base; A := a; B := b; VMid := 0.0 |}.

Definition advance (f : t) (xn tn dt normalVar : R) : R * t :=
  let sde := FdmBase.sde (fdmBase f) in
  let dtSqrt := FdmBase.dtSqrt (fdmBase f) in
  (* Euler for predictor *)
  let VMid := xn + ISde.Drift sde xn tn * dt
              + ISde.Diffusion sde xn tn * dtSqrt * normalVar in
  (* Modified trapezoidal rule *)
  let driftTerm :=
    (A f * ISde.Drift sde VMid (tn + dt)
     + ((1.0 - A f) * ISde.Drift sde xn tn)) * dt in
  let diffusionTerm :=
    (B f * ISde.Diffusion sde VMid (tn + dt)
     + ((1.0 - B f) * ISde.Diffusion sde xn tn)) * dtSqrt * normalVar in
  (xn + driftTerm + diffusionTerm,
   {| fdmBase := fdmBase f; A := A f; B := B f; VMid := VMid |}).

End PredictorCorrectorFdm.

Module ModifiedPredictorCorrectorFdm.

Record t : Type := { fdmBase : FdmBase.t; A : R; B : R; VMid : R }.

Definition ctor (stochasticEquation : ISde.t) (numSubdivisions : Z)
                (a b : R) : result t :=
  let* base := FdmBase.ctor stochasticEquation numSubdivisions in
  Ok {| fdmBase := base; A := a; B := b; VMid := 0.0 |}.

Definition advance (f : t) (xn tn dt normalVar : R) : R * t :=
  let sde := FdmBase.sde (fdmBase f) in
  let dtSqrt := FdmBase.dtSqrt (fdmBase f) in
  let VMid := xn + ISde.Drift sde xn tn * dt
              + ISde.Diffusion sde xn tn * dtSqrt * normalVar in
  let driftTerm :=
    (A f * ISde.DriftCorrected sde VMid (tn + dt) (B f)
     + ((1.0 - A f) * ISde.DriftCorrected sde xn tn (B f))) * dt in
  let diffusionTerm :=
    (B f * ISde.Diffusion sde VMid (tn + dt)
     + ((1.0 - B f) * ISde.Diffusion sde xn tn)) * dtSqrt * normalVar in
  (xn + driftTerm + diffusionTerm,
   {| fdmBase := fdmBase f; A := A f; B := B f; VMid := VMid |}).

End ModifiedPredictorCorrectorFdm.

Module MidpointPredictorCorrectorFdm.

Record t : Type := { fdmBase : FdmBase.t; A : R; B : R; VMid : R }.

Definition ctor (stochasticEquation : ISde.t) (numSubdivisions : Z)
                (a b : R) : result t :=
  let* base := FdmBase.ctor stochasticEquation numSubdivisions in
  Ok {| fdmBase := base; A := a; B := b; VMid := 0.0 |}.

Definition advance (f : t) (xn tn dt normalVar : R) : R * t :=
  let sde := FdmBase.sde (fdmBase f) in
  let dtSqrt := FdmBase.dtSqrt (fdmBase f) in
  let VMid := xn + ISde.Drift sde xn tn * dt
              + ISde.Diffusion sde xn tn * dtSqrt * normalVar in
  let driftTerm :=
    ISde.DriftCorrected sde (A f * VMid + (1.0 - A f) * xn) (tn + dt / 2) (B f)
    * dt in
  let diffusionTerm :=
    ISde.Diffusion sde (B f * VMid + (1.0 - B f) * xn) (tn + dt / 2)
    * dtSqrt * normalVar in
  (xn + driftTerm + diffusionTerm,
   {| fdmBase := fdmBase f; A := A f; B := B f; VMid := VMid |}).

End MidpointPredictorCorrectorFdm.

Module FittedMidpointPredictorCorrectorFdm.

Record t : Type := { fdmBase : FdmBase.t; A : R; B : R; VMid : R }.

Definition ctor (stochasticEquation : ISde.t) (numSubdivisions : Z)
                (a b : R) : result t :=
  let* base := FdmBase.ctor stochasticEquation numSubdivisions in
  Ok {| fdmBase := base; A := a; B := b; VMid := 0.0 |}.

Definition advance (f : t) (xn tn dt normalVar : R) : result (R * t) :=
  let sde := FdmBase.sde (fdmBase f) in
  let dtSqrt := FdmBase.dtSqrt (fdmBase f) in
  let* aFit := fdiv (exp (0.08 * dt) - 1.0) dt in
  let VMid := xn + aFit * xn * dt
              + ISde.Diffusion sde xn tn * dtSqrt * normalVar in
  let driftTerm :=
    ISde.DriftCorrected sde (A f * VMid + (1.0 - A f) * xn) (tn + dt / 2) (B f)
    * dt in
  let diffusionTerm :=
    ISde.Diffusion sde (B f * VMid + (1.0 - B f) * xn) (tn + dt / 2)
    * dtSqrt * normalVar in
  Ok (xn + driftTerm + diffusionTerm,
      {| fdmBase := fdmBase f; A := A f; B := B f; VMid := VMid |}).

End FittedMidpointPredictorCorrectorFdm.

Module Platen_01_Explicit.

Record t : Type := { fdmBase : FdmBase.t }.

Definition ctor (stochasticEquation : ISde.t) (numSubdivisions : Z)
  : result t :=
  let* b := FdmBase.ctor stochasticEquation numSubdivisions in
  Ok {| fdmBase := b |}.

Definition advance (f : t) (xn tn dt normalVar : R) : R :=
  let sde := FdmBase.sde (fdmBase f) in
  let b := ISde.Diffusion sde xn tn in
  let drift_Strat :=
    ISde.Drift sde xn tn - 0.5 * b * ISde.DiffusionDerivative sde xn tn in
  let suppValue := xn + drift_Strat * dt + b * sqrt dt in
  xn + drift_Strat * dt + b * sqrt dt * normalVar
  + 0.5 * sqrt dt * (ISde.Diffusion sde suppValue tn - b)
    * normalVar * normalVar.

End Platen_01_Explicit.

Module Heun.

Record t : Type := { fdmBase : FdmBase.t }.

Definition ctor (stochasticEquation : ISde.t) (numSubdivisions : Z)
  : result t :=
  let* b := FdmBase.ctor stochasticEquation numSubdivisions in
  Ok {| fdmBase := b |}.

Definition advance (f : t) (xn tn dt normalVar : R) : R :=
  let sde := FdmBase.sde (fdmBase f) in
  let a := ISde.Drift sde xn tn in
  let b := ISde.Diffusion sde xn tn in
  let suppValue := xn + a * dt + b * sqrt dt * normalVar in
  xn + 0.5 * (ISde.Drift sde suppValue tn + a) * dt
  + 0.5 * (ISde.Diffusion sde suppValue tn + b) * sqrt dt * normalVar.

End Heun.

Module DerivativeFree.

Record t : Type := {
  fdmBase : FdmBase.t;
  F1 : R; G1 : R; G2 : R; addedVal : R; Wincr : R;
  sqrk : R
}.

Definition ctor (stochasticEquation : ISde.t) (numSubdivisions : Z)
  : result t :=
  let* b := FdmBase.ctor stochasticEquation numSubdivisions in
  Ok {| fdmBase := b; F1 := 0.0; G1 := 0.0; G2 := 0.0; addedVal := 0.0;
        Wincr := 0.0; sqrk := 0.0 |}.

Definition advance (f : t) (xn tn dt normalVar : R) : result (R * t) :=
  let sde := FdmBase.sde (fdmBase f) in
  let dt1 := dt in
  let sqrk := sqrt dt1 in
  let Wincr := sqrk * normalVar in
  let F1 := ISde.Drift sde xn tn in
  let G1 := ISde.Diffusion sde xn tn in
  let G2 := ISde.Diffusion sde (xn + G1 * sqrk) tn in
  let* addedVal := fdiv (0.5 * (G2 - G1) * (Wincr * Wincr - dt1)) sqrk in
  Ok (xn + (F1 * dt1 + G1 * Wincr + addedVal),
      {| fdmBase := fdmBase f; F1 := F1; G1 := G1; G2 := G2;
         addedVal := addedVal; Wincr := Wincr; sqrk := sqrk |}).

End DerivativeFree.

Module FRKI.

Record t : Type := {
  fdmBase : FdmBase.t;
  F1 : R; G1 : R; G2 : R; addedVal : R; Wincr : R;
  sqrk : R
}.

Definition ctor (stochasticEquation : ISde.t) (numSubdivisions : Z)
  : result t :=
  let* b := FdmBase.ctor stochasticEquation numSubdivisions in
  Ok {| fdmBase := b; F1 := 0.0; G1 := 0.0; G2 := 0.0; addedVal := 0.0;
        Wincr := 0.0; sqrk := 0.0 |}.

(** The drift term is taken over the grid step [k], not over [dt]. *)
Definition advance (f : t) (xn tn dt normalVar : R) : R * t :=
  let sde := FdmBase.sde (fdmBase f) in
  let k := FdmBase.k (fdmBase f) in
  let dt1 := dt in
  let sqrk := sqrt dt1 in
  let Wincr := sqrk * normalVar in
  let F1 := ISde.Drift sde xn tn in
  let G1 := ISde.Diffusion sde xn tn in
  let G2 := ISde.Diffusion sde (xn + 0.5 * G1 * (Wincr - sqrk)) tn in
  (xn + (F1 * k + G2 * Wincr + (G2 - G1) * sqrk),
   {| fdmBase := fdmBase f; F1 := F1; G1 := G1; G2 := G2;
      addedVal := addedVal f; Wincr := Wincr; sqrk := sqrk |}).

End FRKI.

Module Heun2.

Record t : Type := {
  fdmBase : FdmBase.t;
  F1 : R; F2 : R; G1 : R; G2 : R; addedVal : R; Wincr : R; tmp : R;
  sqrk : R
}.

Definition F (f : t) (x t : R) : R :=
  let sde := FdmBase.sde (fdmBase f) in
  ISde.Drift sde x t
  - 0.5 * ISde.DiffusionDerivative sde x t * ISde.Diffusion sde x t.

Definition ctor (stochasticEquation : ISde.t) (numSubdivisions : Z)
  : result t :=
  let* b := FdmBase.ctor stochasticEquation numSubdivisions in
  Ok {| fdmBase := b; F1 := 0.0; F2 := 0.0; G1 := 0.0; G2 := 0.0;
        addedVal := 0.0; Wincr := 0.0; tmp := 0.0; sqrk := 0.0 |}.

Definition advance (f : t) (xn tn dt normalVar : R) : R * t :=
  let sde := FdmBase.sde (fdmBase f) in
  let dt1 := dt in
  let sqrk := sqrt dt1 in
  let Wincr := sqrk * normalVar in
  let F1 := F f xn tn in
  let G1 := ISde.Diffusion sde xn tn in
  let tmp := xn + F1 * dt1 + G1 * Wincr in
  let F2 := F f tmp tn in
  let G2 := ISde.Diffusion sde tmp tn in
  (xn + 0.5 * (F1 + F2) * dt1 + 0.5 * (G1 + G2) * Wincr,
   {| fdmBase := fdmBase f; F1 := F1; F2 := F2; G1 := G1; G2 := G2;
      addedVal := addedVal f; Wincr := Wincr; tmp := tmp; sqrk := sqrk |}).

End Heun2.

#[export] Instance EulerFdm_IFdm : IFdm EulerFdm.t :=
  {| base := EulerFdm.fdmBase; advance := EulerFdm.advance |}.

#[export] Instance ExactFdm_IFdm : IFdm ExactFdm.t :=
  {| base := ExactFdm.fdmBase; advance := ExactFdm.advance |}.

#[export] Instance MilsteinFdm_IFdm : IFdm MilsteinFdm.t :=
  {| base := MilsteinFdm.fdmBase; advance := MilsteinFdm.advance |}.

(** ** Rng.hpp: variate generators *)

(** The interface [IRng]: [GenerateRn] returns a variate and moves the
    generator's engine to its next state. *)
Class IRng (G : Type) : Type := {
  GenerateRn : G -> R * G
}.

(** The generators of Rng.hpp, over an engine [E] whose [dist] draws a
    uniform variate of [0, 1) and gives the next engine.  Two of them loop
    until a draw is accepted: [fuel] bounds the rounds, and [None] is a loop
    that has not ended within the bound. *)

Module PolarMarsagliaNet.

Section Engine.

Context {E : Type} (dist : E -> R * E).

Record t : Type := { rng : E }.

Definition ctor (seed : E) : t := {| rng := seed |}.

Fixpoint GenerateRn (fuel : nat) (g : t) : option (result (R * t)) :=
  match fuel with
  | O => None
  | S fuel' =>
      let (a, e1) := dist (rng g) in
      let u := 2.0 * a - 1.0 in
      let (b, e2) := dist e1 in
      let v := 2.0 * b - 1.0 in
      let S := u * u + v * v in
      let g' := {| rng := e2 |} in
      if Rgtb S 1.0 || Rleb S 0.0
      then GenerateRn fuel' g'
      else Some (let* q := fdiv (-2.0 * ln S) S in
                 let fac := sqrt q in
                 Ok (u * fac, g'))
  end.

End Engine.

Arguments t E : clear implicits.

End PolarMarsagliaNet.

Module MyMersenneTwister.

Section Engine.

Context {E : Type} (dist : E -> R * E).

Record t : Type := { rng : E }.

Definition ctor (seed : E) : t := {| rng := seed |}.

Definition GenerateRn (g : t) : R * t :=
  let (u, e) := dist (rng g) in (u, {| rng := e |}).

End Engine.

Arguments t E : clear implicits.

End MyMersenneTwister.

Module BoxMullerNet.

Section Engine.

Context {E : Type} (dist : E -> R * E).

Record t : Type := { rng : E; U1 : R; U2 : R }.

Definition ctor (seed : E) : t := {| rng := seed; U1 := 0.0; U2 := 0.0 |}.

Fixpoint GenerateRn (fuel : nat) (g : t) : option (R * t) :=
  match fuel with
  | O => None
  | S fuel' =>
      let (u1, e1) := dist (rng g) in
      let (u2, e2) := dist e1 in
      let g' := {| rng := e2; U1 := u1; U2 := u2 |} in
      if Rleb u1 0.0
      then GenerateRn fuel' g'
      else Some (sqrt (-2.0 * ln u1) * cos (2.0 * 3.1415159 * u2), g')
  end.

End Engine.

Arguments t E : clear implicits.

End BoxMullerNet.

(** ** MCMediator.hpp: the path generation loop *)

Module MCMediator.

(** What [start] does that is visible outside the mediator, in the order
    in which it happens: the calls of the generator and the signals. *)
Inductive call : Type :=
| rng_GenerateRn (z : R)
| mis (i : Z)
| path (res : Vec.t)
| finish.

Section Mediator.

Context {F G : Type} `{IFdm F} `{IRng G}.

Record t : Type := {
  sde : ISde.t;
  fdm : F;
  rng : G;
  NSim : Z;
  res : Vec.t
}.

(** [fdm->NT + 1] is in range for a scheme that its constructor has
    built, whose [NT] is below [INT_MAX]. *)
Definition ctor (parts : ISde.t * F * G) (numberSimulations : Z)
  : result t :=
  let '(sde, fdm, rng) := parts in
  let* res := Vec.resize (FdmBase.NT (base fdm) + 1) in
  Ok {| sde := sde; fdm := fdm; rng := rng;
        NSim := numberSimulations; res := res |}.

Definition with_rng (m : t) (g : G) : t :=
  {| sde := sde m; fdm := fdm m; rng := g; NSim := NSim m; res := res m |}.

Definition with_res (m : t) (r : Vec.t) : t :=
  {| sde := sde m; fdm := fdm m; rng := rng m; NSim := NSim m; res := r |}.

(** The inner loop [for (int n = 1; n < res.size(); n++)], [trips] being
    the iterations left and [tr] what has happened so far. *)
Fixpoint steps (trips n : nat) (VOld : R) (m : t) (tr : list call)
  : result (t * list call) :=
  match trips with
  | O => Ok (m, tr)
  | S trips' =>
      let* tn := Vec.at_ (FdmBase.x (base (fdm m))) (n - 1) in
      let (z, g) := GenerateRn (rng m) in
      let VNew := advance (fdm m) VOld tn (FdmBase.k (base (fdm m))) z in
      let* r := Vec.assign (res m) n VNew in
      steps trips' (S n) VNew (with_res (with_rng m g) r)
            (tr ++ [rng_GenerateRn z])
  end.

(** The outer loop [for (int i = 0; i < NSim; ++i)]. *)
Fixpoint sims (trips : nat) (i : Z) (m : t) (tr : list call)
  : result (t * list call) :=
  match trips with
  | O => Ok (m, tr)
  | S trips' =>
      let tr := if (Z.rem i 100 =? 0)%Z then tr ++ [mis i] else tr in
      let VOld := ISde.InitialCondition (sde m) in
      let* r := Vec.assign (res m) 0 VOld in
      let m := with_res m r in
      let* (m, tr) := steps (length (res m) - 1) 1 VOld m tr in
      sims trips' (i + 1)%Z m (tr ++ [path (res m)])
  end.

Definition start (m : t) : result (t * list call) :=
  let* (m, tr) := sims (Z.to_nat (NSim m)) 0 m [] in
  Ok (m, tr ++ [finish]).

End Mediator.

Arguments t F G : clear implicits.

End MCMediator.

(** ** Pricers.hpp: payoff accumulators *)

(** The interface [IPricer].  [ProcessPath] and [PostProcess] return the
    pricer after the call. *)
Class IPricer (P : Type) : Type := {
  ProcessPath : P -> Vec.t -> result P;
  PostProcess : P -> result P;
  DiscountFactor : P -> R;
  Price : P -> R
}.

(** A pricer fed a sequence of paths, one [ProcessPath] call each. *)
Fixpoint process_all {P : Type} `{IPricer P} (p : P) (paths : list Vec.t)
  : result P :=
  match paths with
  | [] => Ok p
  | path :: rest => let* p' := ProcessPath p path in process_all p' rest
  end.

Module EuropeanPricer.

Record t : Type := {
  m_payoff : R -> R;
  m_discounter : unit -> R;
  sum : R;
  NSim : Z;
  price : R
}.

Definition ctor (payoff : R -> R) (discounter : unit -> R) : t :=
  {| m_payoff := payoff; m_discounter := discounter;
     price := 0.0; sum := 0.0; NSim := 0 |}.

Definition ProcessPath (p : t) (path : Vec.t) : result t :=
  let* last := Vec.back path in
  Ok {| m_payoff := m_payoff p; m_discounter := m_discounter p;
        sum := sum p + m_payoff p last;
        NSim := NSim p + 1;
        price := price p |}.

Definition DiscountFactor (p : t) : R := m_discounter p tt.

Definition PostProcess (p : t) : result t :=
  let* q := fdiv (DiscountFactor p * sum p) (IZR (NSim p)) in
  Ok {| m_payoff := m_payoff p; m_discounter := m_discounter p;
        sum := sum p; NSim := NSim p; price := q |}.

Definition Price (p : t) : R := price p.

End EuropeanPricer.

Module AsianPricer.

Record t : Type := {
  m_payoff : R -> R;
  m_discounter : unit -> R;
  sum : R;
  NSim : Z;
  price : R;
  avg : R
}.

Definition Average (path : Vec.t) : result R :=
  let avg := Vec.accumulate path in
  fdiv avg (INR (length path)).

Definition MaxValue (path : Vec.t) : result R :=
  let* max := Vec.front path in
  Ok (fold_left (fun max val => if Rgtb val max then val else max) path max).

Definition ctor (payoff : R -> R) (discounter : unit -> R) : t :=
  {| m_payoff := payoff; m_discounter := discounter;
     sum := 0.0; NSim := 0; price := 0.0; avg := 0.0 |}.

Definition ProcessPath (p : t) (path : Vec.t) : result t :=
  let* avg' := Average path in
  Ok {| m_payoff := m_payoff p; m_discounter := m_discounter p;
        sum := sum p + m_payoff p avg';
        NSim := NSim p + 1;
        price := price p; avg := avg p |}.

Definition DiscountFactor (p : t) : R := m_discounter p tt.

Definition PostProcess (p : t) : result t :=
  let* q := fdiv (DiscountFactor p * sum p) (IZR (NSim p)) in
  Ok {| m_payoff := m_payoff p; m_discounter := m_discounter p;
        sum := sum p; NSim := NSim p; price := q; avg := avg p |}.

Definition Price (p : t) : R := price p.

End AsianPricer.

Module BarrierPricer.

Record t : Type := {
  m_payoff : R -> R;
  m_discounter : unit -> R;
  price : R;
  sum : R;
  sum2 : R;
  NSim : Z
}.

Definition ctor (payoff : R -> R) (discounter : unit -> R) : t :=
  {| m_payoff := payoff; m_discounter := discounter;
     price := 0.0; sum := 0.0; sum2 := 0.0; NSim := 0 |}.

(** The loop over the path, left at the first value that is at or above
    the barrier: the value of [knockedOut] after it. *)
Fixpoint knocked (L : R) (path : Vec.t) : bool :=
  match path with
  | [] => false
  | price :: rest => if Rgeb price L then true else knocked L rest
  end.

Definition ProcessPath (p : t) (path : Vec.t) : result t :=
  let L := 170.0 in
  let rebate := 0.0 in
  let knockedOut := knocked L path in
  let* v := if negb knockedOut
            then let* last := Vec.back path in Ok (m_payoff p last)
            else Ok rebate in
  Ok {| m_payoff := m_payoff p; m_discounter := m_discounter p;
        price := price p;
        sum := sum p + v; sum2 := sum2 p;
        NSim := NSim p + 1 |}.

Definition DiscountFactor (p : t) : R := m_discounter p tt.

Definition PostProcess (p : t) : result t :=
  let* q := fdiv (DiscountFactor p * sum p) (IZR (NSim p)) in
  Ok {| m_payoff := m_payoff p; m_discounter := m_discounter p;
        price := q; sum := sum p; sum2 := sum2 p; NSim := NSim p |}.

Definition Price (p : t) : R := price p.

End BarrierPricer.

Module BrownianBridgePricer.

Section Engine.

(** The pricer's own [std::mt19937] with its uniform distribution on
    [0, 1): [dist] draws a variate and moves the engine on. *)
Context {E : Type} (dist : E -> R * E).

Record t : Type := {
  m_payoff : R -> R;
  m_discounter : unit -> R;
  price : R;
  sum : R;
  sum2 : R;
  NSim : Z;
  dt : R;
  sde : GBM.t;
  counter : Z;
  rng : E
}.

(** [seed] is the engine as [std::random_device] seeds it. *)
Definition ctor (payoff : R -> R) (discounter : unit -> R)
                (isde : GBM.t) (step : R) (seed : E) : t :=
  {| m_payoff := payoff; m_discounter := discounter;
     price := 0.0; sum := 0.0; sum2 := 0.0; NSim := 0; dt := step;
     sde := isde; counter := 0; rng := seed |}.

Definition with_draw (p : t) (c : Z) (g : E) : t :=
  {| m_payoff := m_payoff p; m_discounter := m_discounter p;
     price := price p; sum := sum p; sum2 := sum2 p; NSim := NSim p;
     dt := dt p; sde := sde p; counter := c; rng := g |}.

(** The loop [for (size_t n = 1; n < path.size(); ++n)] with its
    [break]; [trips] are the iterations left.  It returns [crossed] and
    the pricer with its counter and engine as the loop leaves them. *)
Fixpoint scan (L : R) (trips n : nat) (p : t) (path : Vec.t)
  : result (bool * t) :=
  match trips with
  | O => Ok (false, p)
  | S trips' =>
      let* prev := Vec.at_ path (n - 1) in
      let tmp := GBM.Diffusion (sde p) prev (INR (n - 1) * dt p) in
      let* cur := Vec.at_ path n in
      let* q := fdiv (-2.0 * (L - prev) * (L - cur)) (tmp * tmp * dt p) in
      let P := exp q in
      let (u, g) := dist (rng p) in
      let c := if Rgeb P u then (counter p + 1)%Z else counter p in
      let p' := with_draw p c g in
      if Rgeb cur L || Rgeb P u
      then Ok (true, p')
      else scan L trips' (S n) p' path
  end.

Definition ProcessPath (p : t) (path : Vec.t) : result t :=
  let L := 170.0 in
  let rebate := 0.0 in
  let* (crossed, p') := scan L (length path - 1) 1 p path in
  let* v := if crossed
            then Ok rebate
            else let* last := Vec.back path in Ok (m_payoff p' last) in
  Ok {| m_payoff := m_payoff p'; m_discounter := m_discounter p';
        price := price p';
        sum := sum p' + v; sum2 := sum2 p';
        NSim := NSim p' + 1;
        dt := dt p'; sde := sde p'; counter := counter p'; rng := rng p' |}.

Definition DiscountFactor (p : t) : R := m_discounter p tt.

Definition PostProcess (p : t) : result t :=
  let* q := fdiv (DiscountFactor p * sum p) (IZR (NSim p)) in
  Ok {| m_payoff := m_payoff p; m_discounter := m_discounter p;
        price := q; sum := sum p; sum2 := sum2 p; NSim := NSim p;
        dt := dt p; sde := sde p; counter := counter p; rng := rng p |}.

Definition Price (p : t) : R := price p.

End Engine.

Arguments t E : clear implicits.

End BrownianBridgePricer.

#[export] Instance EuropeanPricer_IPricer : IPricer EuropeanPricer.t :=
  {| ProcessPath := EuropeanPricer.ProcessPath;
     PostProcess := EuropeanPricer.PostProcess;
     DiscountFactor := EuropeanPricer.DiscountFactor;
     Price := EuropeanPricer.Price |}.

#[export] Instance AsianPricer_IPricer : IPricer AsianPricer.t :=
  {| ProcessPath := AsianPricer.ProcessPath;
     PostProcess := AsianPricer.PostProcess;
     DiscountFactor := AsianPricer.DiscountFactor;
     Price := AsianPricer.Price |}.

#[export] Instance BarrierPricer_IPricer : IPricer BarrierPricer.t :=
  {| ProcessPath := BarrierPricer.ProcessPath;
     PostProcess := BarrierPricer.PostProcess;
     DiscountFactor := BarrierPricer.DiscountFactor;
     Price := BarrierPricer.Price |}.

(** A bridge pricer is an [IPricer] once its engine's [dist] is fixed. *)
Definition BrownianBridgePricer_IPricer {E : Type} (dist : E -> R * E)
  : IPricer (BrownianBridgePricer.t E) :=
  {| ProcessPath := BrownianBridgePricer.ProcessPath dist;
     PostProcess := BrownianBridgePricer.PostProcess;
     DiscountFactor := BrownianBridgePricer.DiscountFactor;
     Price := BrownianBridgePricer.Price |}.

(** ** MCBuilder.hpp: the pricer behind the mediator's signals *)

Module MCBuilder.

(** [InitializePricer] makes a Vanilla pricer [op] and the two slots that
    share it: [f1], connected to the path signal, and [f2], connected to the
    finish signal. *)
Definition InitializePricer (payoff : R -> R) (discounter : unit -> R)
  : EuropeanPricer.t :=
  EuropeanPricer.ctor payoff discounter.

Definition f1 (op : EuropeanPricer.t) (path : Vec.t) : result EuropeanPricer.t :=
  ProcessPath op path.

Definition f2 (op : EuropeanPricer.t) : result EuropeanPricer.t :=
  PostProcess op.

(** The signals of a run of the mediator reaching the slots, in order. *)
Fixpoint deliver (tr : list MCMediator.call) (op : EuropeanPricer.t)
  : result EuropeanPricer.t :=
  match tr with
  | [] => Ok op
  | MCMediator.path res :: tr' => let* op' := f1 op res in deliver tr' op'
  | MCMediator.finish :: tr' => let* op' := f2 op in deliver tr' op'
  | _ :: tr' => deliver tr' op
  end.

End MCBuilder.

(** ** OptionData.hpp: the payoff and the discounter handed to the pricers *)

Module OptionData.

Record t : Type := {
  K : R;
  T : R;
  r : R;
  sig : R;
  D : R;
  type : Z   (* 1 == call, -1 == put *)
}.

Definition ctor (strike expiration interestRate volatility dividend : R)
                (PC : Z) : t :=
  {| K := strike; T := expiration; r := interestRate; sig := volatility;
     D := dividend; type := PC |}.

Definition myPayOffFunction (o : t) (S : R) : R :=
  if (type o =? 1)%Z
  then Rmax (S - K o) 0.0   (* Call *)
  else Rmax (K o - S) 0.0.  (* Put *)

Definition getPayOff (o : t) : R -> R :=
  fun S => if (type o =? 1)%Z then Rmax (S - K o) 0.0 else Rmax (K o - S) 0.0.

Definition getDiscounter (o : t) : unit -> R :=
  fun _ => exp (- r o * T o).

End OptionData.

(** ** Test.cpp and MCBuilder.hpp: the option of the test program

    A call struck at 65 expiring in a quarter, and the lognormal model the
    builder makes for it from the initial value [S_0] that the user enters. *)

Definition testOption : OptionData.t :=
  OptionData.ctor 65.0 0.25 0.08 0.3 0.0022 1.

Definition testGBM (S_0 : R) : GBM.t :=
  GBM.ctor (OptionData.r testOption) (OptionData.sig testOption)
           (OptionData.D testOption) S_0 (OptionData.T testOption).

(** ** Generators that replay a given sequence of variates

    The engines of Rng.hpp are seeded from [std::random_device]; a run is
    described for whatever sequence they deliver.  [tape n] is the variate
    of the call number [n], the state is the number of calls made. *)

Definition tape_dist (tape : nat -> R) : nat -> R * nat :=
  fun n => (tape n, S n).

Definition tape_rng (tape : nat -> R) : IRng nat :=
  {| GenerateRn := tape_dist tape |}.

(** A bridge pricer for the test program's option, stepping by a hundredth
    of the expiry, its engine replaying the variate one half. *)
Definition testBridge : BrownianBridgePricer.t nat :=
  BrownianBridgePricer.ctor (OptionData.getPayOff testOption)
                            (OptionData.getDiscounter testOption)
                            (testGBM 65) 0.0025 0%nat.

Definition testDist : nat -> R * nat := tape_dist (fun _ => 0.5).

(** ** The vocabulary of the statements *)

(** The engine after [n] draws, and the variate of the draw that follows. *)
Fixpoint engine_after {E : Type} (dist : E -> R * E) (n : nat) (g : E) : E :=
  match n with
  | O => g
  | S n' => engine_after dist n' (snd (dist g))
  end.

Definition variate {E : Type} (dist : E -> R * E) (n : nat) (g : E) : R :=
  fst (dist (engine_after dist n g)).

(** The next [n] variates, in the order of the draws. *)
Fixpoint variates {E : Type} (dist : E -> R * E) (n : nat) (g : E) : list R :=
  match n with
  | O => []
  | S n' => fst (dist g) :: variates dist n' (snd (dist g))
  end.

(** The time points [0, k, 2k, ..., N k]. *)
Definition grid (N : nat) (k : R) : Vec.t :=
  map (fun n => INR n * k) (seq 0 (S N)).

(** The base of a scheme with two steps over a quarter for the model
    [sde], as the constructor makes it. *)
Definition testBase (sde : ISde.t) : FdmBase.t :=
  {| FdmBase.sde := sde;
     FdmBase.dtSqrt := sqrt (0.25 / 2);
     FdmBase.NT := 2;
     FdmBase.x := grid 2 (0.25 / 2);
     FdmBase.k := 0.25 / 2 |}.

(** For the pair ([path[n - 1]], [path[n]]) of the bridge pricer: the
    divisor [sigma_local^2 * dt], the crossing probability, and the test
    of the pair against its own draw, the barrier being [L].  The pair [n]
    is given the draw number [n - 1] of the engine [g]. *)
Definition bridge_divisor (sde : GBM.t) (dt : R) (path : Vec.t) (n : nat) : R :=
  let sigma_local := GBM.Diffusion sde (nth (n - 1) path 0) (INR (n - 1) * dt) in
  sigma_local * sigma_local * dt.

Definition bridge_P (L : R) (sde : GBM.t) (dt : R) (path : Vec.t) (n : nat) : R :=
  exp (-2 * (L - nth (n - 1) path 0) * (L - nth n path 0)
       / bridge_divisor sde dt path n).

Definition bridge_hit {E : Type} (dist : E -> R * E) (g : E)
           (L : R) (sde : GBM.t) (dt : R) (path : Vec.t) (n : nat) : Prop :=
  nth n path 0 >= L \/ bridge_P L sde dt path n >= variate dist (n - 1) g.

(** The values a scheme generates from [v] at the time point [n - 1] with
    the variates [zs], one step of size [k] per variate; and the path that
    starts at the initial condition [ic]. *)
Fixpoint advance_from {F : Type} `{IFdm F} (fdm : F) (n : nat) (v : R)
         (zs : list R) : list R :=
  match zs with
  | [] => []
  | z :: zs' =>
      let v' := advance fdm v (nth (n - 1) (FdmBase.x (base fdm)) 0)
                        (FdmBase.k (base fdm)) z in
      v' :: advance_from fdm (S n) v' zs'
  end.

Definition generated_path {F : Type} `{IFdm F} (fdm : F) (ic : R)
           (zs : list R) : Vec.t :=
  ic :: advance_from fdm 1 ic zs.

(** The variates of [M] paths of [N] steps each, path by path. *)
Fixpoint variates_per_path {G : Type} `{IRng G} (M N : nat) (g : G)
  : list (list R) :=
  match M with
  | O => []
  | S M' =>
      variates GenerateRn N g
      :: variates_per_path M' N (engine_after GenerateRn N g)
  end.

Definition is_path (c : MCMediator.call) : bool :=
  match c with
  | MCMediator.path _ => true
  | _ => false
  end.

Definition is_mis (c : MCMediator.call) : bool :=
  match c with
  | MCMediator.mis _ => true
  | _ => false
  end.

(** What one simulation of the mediator shows outside: the progress signal
    when its index is a multiple of 100, the generator's calls, the path. *)
Definition simulation (i : nat) (zs : list R) (p : Vec.t)
  : list MCMediator.call :=
  (if (Z.of_nat i mod 100 =? 0)%Z then [MCMediator.mis (Z.of_nat i)] else [])
  ++ map MCMediator.rng_GenerateRn zs
  ++ [MCMediator.path p].

Fixpoint simulations (i : nat) (zss : list (list R)) (ps : list Vec.t)
  : list MCMediator.call :=
  match zss, ps with
  | zs :: zss', p :: ps' => simulation i zs p ++ simulations (S i) zss' ps'
  | _, _ => []
  end.

(** A pricer finalizes as specified: after the paths of a non-empty
    sequence [PostProcess] sets the price to the discounted running sum over
    their number, and with no path processed it divides by zero. *)
Definition finalizes {P : Type} `{IPricer P} (sum : P -> R) (init : P) : Prop :=
  forall (paths : list Vec.t) (p : P),
    process_all init paths = Ok p ->
    match paths with
    | [] => PostProcess p = Err DivisionByZero
    | _ :: _ =>
        exists p', PostProcess p = Ok p'
                   /\ Price p' = DiscountFactor p * sum p / INR (length paths)
    end.

(** The price a pricer reports once it has been fed [paths] and finalized. *)
Definition finalized_price {P : Type} `{IPricer P} (init : P)
           (paths : list Vec.t) : result R :=
  let* p := process_all init paths in
  let* p' := PostProcess p in
  Ok (Price p').

(** A Barrier and a Vanilla pricer side by side: the same payoff, the same
    discounter, the same count, and the knock-out sum below the vanilla
    sum. *)
Definition below (payoff : R -> R) (discounter : unit -> R)
           (b : BarrierPricer.t) (v : EuropeanPricer.t) : Prop :=
  BarrierPricer.m_payoff b = payoff
  /\ EuropeanPricer.m_payoff v = payoff
  /\ BarrierPricer.m_discounter b = discounter
  /\ EuropeanPricer.m_discounter v = discounter
  /\ BarrierPricer.NSim b = EuropeanPricer.NSim v
  /\ BarrierPricer.sum b <= EuropeanPricer.sum v.

(** The sum of a list of numbers. *)
Definition Rsum (l : list R) : R := fold_right Rplus 0 l.


(** The [i]-th uniform of an engine, stretched to [-1, 1], and the squared
    radius of the [i]-th pair of them: the [u] (or [v]) and the [S] of the
    polar method's [i]-th round. *)
Definition polar_u {E : Type} (dist : E -> R * E) (i : nat) (e : E) : R :=
  2.0 * variate dist i e - 1.0.

Definition polar_S {E : Type} (dist : E -> R * E) (i : nat) (e : E) : R :=
  polar_u dist (2 * i) e * polar_u dist (2 * i) e
  + polar_u dist (2 * i + 1) e * polar_u dist (2 * i + 1) e.

(** ** Fdm.hpp in binary64: the constructor of [FdmBase]

    The constructor once more, line by line as above, with [double] as
    the kernel's [float] and its operations as the IEEE 754 ones. *)

Module Double.

(** [(double)n] for an [int] [n]; exact, an [int] having 32 bits. *)
Definition of_int (n : Z) : float :=
  if (n <? 0)%Z then (- of_uint63 (Uint63.of_Z (- n)))%float
  else of_uint63 (Uint63.of_Z n).

(** [x / (double)n] with the divisor checked; [(double)n] is zero exactly
    when [n] is. *)
Definition fdiv_int (x : float) (n : Z) : result float :=
  if (n =? 0)%Z then Err DivisionByZero else Ok (x / of_int n)%float.

Module Vec.

Definition t := list float.

Definition at_ (v : t) (n : nat) : result float :=
  match nth_error v n with
  | Some x => Ok x
  | None => Err OutOfBounds
  end.

Fixpoint assign (v : t) (n : nat) (a : float) : result t :=
  match v, n with
  | [], _ => Err OutOfBounds
  | _ :: v', O => Ok (a :: v')
  | x :: v', S n' => let* w := assign v' n' a in Ok (x :: w)
  end.

Definition resize (n : Z) : result t :=
  if (n <? 0)%Z then Err LengthError else Ok (repeat 0%float (Z.to_nat n)).

End Vec.

Module ISde.

Record t : Type := {
  Drift : float -> float -> float;
  Diffusion : float -> float -> float;
  DriftCorrected : float -> float -> float -> float;
  DiffusionDerivative : float -> float -> float;
  InitialCondition : float;
  Expiry : float
}.

End ISde.

Module GBM.

Record t : Type := {
  mu : float;
  vol : float;
  div : float;
  ic : float;
  exp : float
}.

Definition ctor (driftCoefficient diffusionCoefficient dividendYield
                 initialCondition expiry : float) : t :=
  {| mu := driftCoefficient; vol := diffusionCoefficient;
     div := dividendYield; ic := initialCondition; exp := expiry |}.

Definition Drift (s : t) (x t : float) : float := ((mu s - div s) * x)%float.

Definition Diffusion (s : t) (x t : float) : float := (vol s * x)%float.

Definition DiffusionDerivative (s : t) (x t : float) : float := vol s.

Definition DriftCorrected (s : t) (x t B : float) : float :=
  (Drift s x t - B * Diffusion s x t * DiffusionDerivative s x t)%float.

Definition as_ISde (s : t) : ISde.t :=
  {| ISde.Drift := Drift s;
     ISde.Diffusion := Diffusion s;
     ISde.DriftCorrected := DriftCorrected s;
     ISde.DiffusionDerivative := DiffusionDerivative s;
     ISde.InitialCondition := ic s;
     ISde.Expiry := exp s |}.

End GBM.

Module FdmBase.

Record t : Type := {
  sde : ISde.t;
  dtSqrt : float;
  NT : Z;
  x : Vec.t;
  k : float
}.

Fixpoint fill (trips n : nat) (k : float) (x : Vec.t) : result Vec.t :=
  match trips with
  | O => Ok x
  | S trips' =>
      let* prev := Vec.at_ x (n - 1) in
      let* x' := Vec.assign x n (prev + k)%float in
      fill trips' (S n) k x'
  end.

Definition ctor (stochasticEquation : ISde.t) (numSubdivisions : Z)
  : result t :=
  let sde := stochasticEquation in
  let NT := numSubdivisions in
  let* k := fdiv_int (ISde.Expiry sde) NT in
  let dtSqrt := PrimFloat.sqrt k in
  let* size := int_add NT 1 in
  let* x := Vec.resize size in
  let* x := Vec.assign x 0 0%float in
  let* x := fill (Z.to_nat NT) 1 k x in
  Ok {| sde := sde; dtSqrt := dtSqrt; NT := NT; x := x; k := k |}.

Definition set_StochasticEquation (f : t) (ssde : ISde.t) : t :=
  {| sde := ssde; dtSqrt := dtSqrt f; NT := NT f; x := x f; k := k f |}.

End FdmBase.

(** The points [0], [0 + k], [(0 + k) + k], ... up to the index [N], each
    the rounded sum of the one before and [k]. *)
Fixpoint grid (N : nat) (k : float) : Vec.t :=
  match N with
  | O => [0%float]
  | S N' => grid N' k ++ [(last (grid N' k) 0 + k)%float]
  end.

(** The model of the test program, its expiry a quarter. *)
Definition testGBM : GBM.t := GBM.ctor 0.08 0.3 0.0022 65 0.25.

End Double.

(** * Properties *)

(** ** Checked operations *)

Lemma Rgeb_true (x y : R) : Rgeb x y = true <-> x >= y.
Proof.
  unfold Rgeb. destruct (Rge_dec x y); split; intro; try easy.
Qed.

Lemma Rgeb_false (x y : R) : Rgeb x y = false <-> x < y.
Proof.
  unfold Rgeb. destruct (Rge_dec x y); split; intro; try easy; lra.
Qed.

Lemma Rgtb_true (x y : R) : Rgtb x y = true <-> x > y.
Proof.
  unfold Rgtb. destruct (Rgt_dec x y); split; intro; try easy.
Qed.

Lemma fdiv_ok (x y : R) : y <> 0 -> fdiv x y = Ok (x / y).
Proof.
  intro Hy. unfold fdiv. destruct (Req_dec_T y 0); [contradiction | reflexivity].
Qed.

Lemma fdiv_zero (x : R) : fdiv x 0 = Err DivisionByZero.
Proof.
  unfold fdiv. destruct (Req_dec_T 0 0); [reflexivity | now elim n].
Qed.

Lemma fdiv_inv (x y q : R) : fdiv x y = Ok q -> y <> 0 /\ q = x / y.
Proof.
  unfold fdiv. destruct (Req_dec_T y 0); intro E; [discriminate|].
  injection E as <-. now split.
Qed.

Lemma at_ok (v : Vec.t) (n : nat) :
  (n < length v)%nat -> Vec.at_ v n = Ok (nth n v 0).
Proof.
  intro Hn. unfold Vec.at_.
  destruct (nth_error v n) eqn:E.
  - now rewrite (nth_error_nth _ _ 0 E).
  - apply nth_error_None in E. lia.
Qed.

Lemma back_ok (v : Vec.t) : v <> [] -> Vec.back v = Ok (last v 0).
Proof. destruct v; [congruence | reflexivity]. Qed.

Lemma assign_app (pre suf : Vec.t) (old a : R) :
  Vec.assign (pre ++ old :: suf) (length pre) a = Ok (pre ++ a :: suf).
Proof.
  induction pre as [|y pre IH]; simpl; [reflexivity|].
  now rewrite IH.
Qed.

(** ** The time grid of a scheme *)

Lemma grid_length (N : nat) (k : R) : length (grid N k) = S N.
Proof. unfold grid. now rewrite length_map, length_seq. Qed.

Lemma grid_nth (N : nat) (k : R) (n : nat) :
  (n <= N)%nat -> nth n (grid N k) 0 = INR n * k.
Proof.
  intro Hn. unfold grid.
  rewrite (nth_indep _ 0 (INR 0 * k)) by (rewrite length_map, length_seq; lia).
  rewrite (map_nth (fun i => INR i * k)), seq_nth by lia.
  reflexivity.
Qed.

Lemma grid_snoc (N : nat) (k : R) :
  grid (S N) k = grid N k ++ [INR (S N) * k].
Proof. unfold grid. now rewrite (seq_S (S N)), map_app. Qed.

(** The constructor's loop completes a grid filled up to [n - 1]. *)
Lemma fill_grid (trips : nat) :
  forall (n : nat) (k : R) (suf : Vec.t),
    length suf = trips ->
    FdmBase.fill trips (S n) k (grid n k ++ suf) = Ok (grid (n + trips) k).
Proof.
  induction trips as [|trips IH]; intros n k suf Hsuf.
  - destruct suf; [|discriminate]. simpl.
    now rewrite app_nil_r, Nat.add_0_r.
  - destruct suf as [|old suf]; [discriminate|].
    injection Hsuf as Hsuf. cbn [FdmBase.fill].
    replace (S n - 1)%nat with n by lia.
    rewrite at_ok by (rewrite length_app, grid_length; simpl; lia).
    rewrite app_nth1 by (rewrite grid_length; lia).
    rewrite grid_nth by lia. cbn [bind].
    replace (S n) with (length (grid n k)) at 1 by apply grid_length.
    rewrite assign_app. cbn [bind].
    replace (INR n * k + k) with (INR (S n) * k) by (rewrite S_INR; ring).
    replace (grid n k ++ INR (S n) * k :: suf)
      with (grid (S n) k ++ suf)
      by (rewrite grid_snoc, <- app_assoc; reflexivity).
    rewrite (IH (S n) k suf Hsuf). f_equal. f_equal. lia.
Qed.

(** A scheme built with at least one subdivision: the constructor succeeds
    and leaves the grid [0, k, ..., N k] with [k = T / N]. *)
Lemma int_add_ok (a b : Z) :
  (a + b <= 2147483647)%Z -> int_add a b = Ok (a + b)%Z.
Proof.
  intro H. unfold int_add, INT_MAX.
  destruct (Z.ltb_spec 2147483647 (a + b)) as [|_]; [lia | reflexivity].
Qed.

Lemma int_add_overflow (a b : Z) :
  (2147483647 < a + b)%Z -> int_add a b = Err Overflow.
Proof.
  intro H. unfold int_add, INT_MAX.
  destruct (Z.ltb_spec 2147483647 (a + b)) as [_|]; [reflexivity | lia].
Qed.

Lemma FdmBase_ctor_ok (sde : ISde.t) (N : Z) :
  (1 <= N < 2147483647)%Z ->
  FdmBase.ctor sde N
  = Ok {| FdmBase.sde := sde;
          FdmBase.dtSqrt := sqrt (ISde.Expiry sde / IZR N);
          FdmBase.NT := N;
          FdmBase.x := grid (Z.to_nat N) (ISde.Expiry sde / IZR N);
          FdmBase.k := ISde.Expiry sde / IZR N |}.
Proof.
  intro HN. unfold FdmBase.ctor.
  rewrite fdiv_ok by (apply not_0_IZR; lia). cbn [bind].
  rewrite int_add_ok by lia. cbn [bind].
  unfold Vec.resize.
  destruct (Z.ltb_spec (N + 1) 0) as [Hneg|_]; [lia|]. cbn [bind].
  replace (Z.to_nat (N + 1)) with (S (Z.to_nat N)) by lia.
  cbn [repeat Vec.assign bind].
  set (k := ISde.Expiry sde / IZR N).
  replace (0.0 :: repeat 0 (Z.to_nat N)) with (grid 0 k ++ repeat 0 (Z.to_nat N))
    by (unfold grid; simpl; f_equal; lra).
  rewrite fill_grid by apply repeat_length. reflexivity.
Qed.

(** A constructor that returns has been given at least one subdivision,
    and not so many that [NT + 1] overflows. *)
Lemma FdmBase_ctor_inv (sde : ISde.t) (N : Z) (f : FdmBase.t) :
  FdmBase.ctor sde N = Ok f ->
  (1 <= N < 2147483647)%Z
  /\ f = {| FdmBase.sde := sde;
            FdmBase.dtSqrt := sqrt (ISde.Expiry sde / IZR N);
            FdmBase.NT := N;
            FdmBase.x := grid (Z.to_nat N) (ISde.Expiry sde / IZR N);
            FdmBase.k := ISde.Expiry sde / IZR N |}.
Proof.
  destruct (Z_le_gt_dec 1 N) as [HN|HN];
    [destruct (Z_lt_ge_dec N 2147483647) as [HM|HM]|].
  - rewrite FdmBase_ctor_ok by lia. intro E. injection E as <-.
    split; [lia | reflexivity].
  - unfold FdmBase.ctor, fdiv.
    destruct (Req_dec_T (IZR N) 0) as [|Hnz]; [discriminate|]. cbn [bind].
    rewrite int_add_overflow by lia. discriminate.
  - unfold FdmBase.ctor, fdiv.
    destruct (Req_dec_T (IZR N) 0) as [|Hnz]; [discriminate|]. cbn [bind].
    rewrite int_add_ok by lia. cbn [bind].
    unfold Vec.resize.
    destruct (Z.ltb_spec (N + 1) 0) as [|Hge]; [discriminate|]. cbn [bind].
    assert (N = 0 \/ N = -1)%Z as [->| ->] by lia.
    + now elim Hnz.
    + discriminate.
Qed.

(** ** The schemes' updates *)

(** C5.  The Exact scheme's step does not depend on the current state: it
    is [S0 * exp ((mu - 0.5 sigma^2) (t_n + dt) + sigma sqrt (t_n + dt) Z)],
    with [S0], [mu] and [sigma] as the scheme stores them. *)
Theorem Exact_advance_ignores_state (f : ExactFdm.t) (x x' tn dt Z : R) :
  ExactFdm.advance f x tn dt Z = ExactFdm.advance f x' tn dt Z
  /\ ExactFdm.advance f x tn dt Z
     = ExactFdm.S0 f
       * exp ((ExactFdm.mu f - 0.5 * (ExactFdm.sig f) ^ 2) * (tn + dt)
              + ExactFdm.sig f * sqrt (tn + dt) * Z).
Proof.
  split; [reflexivity|].
  unfold ExactFdm.advance. do 3 f_equal. ring.
Qed.

(** C4, as the code has it.  The Milstein step is the Euler step
    [x_n + a dt + b s Z] plus [0.5 dt b b' (Z^2 - 1)], where [s] is the
    square root of the scheme's own grid step [k = T / N], stored at
    construction; [s] is the square root of [dt] when the step is taken
    with [dt = k]. *)
Theorem Milstein_advance (sde : ISde.t) (N : Z) (f : MilsteinFdm.t)
        (xn tn dt Z : R) :
  MilsteinFdm.ctor sde N = Ok f ->
  let a := ISde.Drift sde xn tn in
  let b := ISde.Diffusion sde xn tn in
  let b' := ISde.DiffusionDerivative sde xn tn in
  let s := sqrt (ISde.Expiry sde / IZR N) in
  EulerFdm.advance {| EulerFdm.fdmBase := MilsteinFdm.fdmBase f |} xn tn dt Z
  = xn + a * dt + b * s * Z
  /\ MilsteinFdm.advance f xn tn dt Z
     = (xn + a * dt + b * s * Z) + 0.5 * dt * b * b' * (Z ^ 2 - 1)
  /\ (dt = FdmBase.k (MilsteinFdm.fdmBase f) -> s = sqrt dt).
Proof.
  unfold MilsteinFdm.ctor. intro Hctor.
  destruct (FdmBase.ctor sde N) as [fb|] eqn:Hfb; [|discriminate].
  injection Hctor as <-.
  apply FdmBase_ctor_inv in Hfb as [_ ->].
  unfold EulerFdm.advance, MilsteinFdm.advance. cbn.
  repeat split.
  - f_equal. lra.
  - intros ->. reflexivity.
Qed.

Lemma Milstein_advance_witness :
  exists f : MilsteinFdm.t,
    MilsteinFdm.ctor (GBM.as_ISde (GBM.ctor 0 1 0 1 1)) 1 = Ok f
    /\ MilsteinFdm.advance f 1 0 1 2 = (1 + 0 * 1 + 1 * sqrt (1 / 1) * 2)
                                       + 0.5 * 1 * 1 * 1 * (2 ^ 2 - 1).
Proof.
  assert (H : MilsteinFdm.ctor (GBM.as_ISde (GBM.ctor 0 1 0 1 1)) 1
              = Ok {| MilsteinFdm.fdmBase :=
                        {| FdmBase.sde := GBM.as_ISde (GBM.ctor 0 1 0 1 1);
                           FdmBase.dtSqrt := sqrt (1 / 1);
                           FdmBase.NT := 1;
                           FdmBase.x := grid 1 (1 / 1);
                           FdmBase.k := 1 / 1 |} |}).
  { unfold MilsteinFdm.ctor. rewrite FdmBase_ctor_ok by lia. reflexivity. }
  eexists. split; [exact H|].
  destruct (Milstein_advance _ _ _ 1 0 1 2 H) as (_ & Hm & _).
  rewrite Hm. unfold GBM.as_ISde, GBM.Drift, GBM.Diffusion. cbn. lra.
Defined.

(** C4 as it is stated fails: a scheme whose grid step is 1, asked for a
    step of size 4, scales the variate by [sqrt 1], not by [sqrt 4]. *)
Lemma Milstein_advance_counterexample :
  exists f : MilsteinFdm.t,
    MilsteinFdm.ctor (GBM.as_ISde (GBM.ctor 0 1 0 1 1)) 1 = Ok f
    /\ MilsteinFdm.advance f 1 0 4 1 = 2
    /\ MilsteinFdm.advance f 1 0 4 1
       <> 1 + ISde.Drift (GBM.as_ISde (GBM.ctor 0 1 0 1 1)) 1 0 * 4
          + ISde.Diffusion (GBM.as_ISde (GBM.ctor 0 1 0 1 1)) 1 0 * sqrt 4 * 1
          + 0.5 * 4 * ISde.Diffusion (GBM.as_ISde (GBM.ctor 0 1 0 1 1)) 1 0
            * ISde.DiffusionDerivative (GBM.as_ISde (GBM.ctor 0 1 0 1 1)) 1 0
            * (1 ^ 2 - 1).
Proof.
  eexists. split.
  - unfold MilsteinFdm.ctor. rewrite FdmBase_ctor_ok by lia. reflexivity.
  - replace (sqrt 4) with 2
      by (symmetry; replace 4 with (2 * 2) by lra; apply sqrt_square; lra).
    unfold MilsteinFdm.advance, GBM.as_ISde, GBM.Drift, GBM.Diffusion. cbn.
    replace (1 / 1) with 1 by lra. rewrite sqrt_1.
    split; lra.
Qed.

(** ** The elasticity-of-variance model *)

(** C6, as the code has it.  The constructor scales the coefficient by
    [S0 ^ (1 - beta)], so the diffusion is
    [sigma * S0 ^ (1 - beta) * x ^ beta]. *)
Theorem CEV_Diffusion (mu sigma q S0 T beta x t : R) :
  0 < S0 -> 0 < x ->
  CEV.Diffusion (CEV.ctor mu sigma q S0 T beta) x t
  = sigma * Rpower S0 (1 - beta) * Rpower x beta.
Proof.
  intros _ _. unfold CEV.Diffusion, CEV.ctor. cbn.
  replace (1.0 - beta) with (1 - beta) by lra. reflexivity.
Qed.

Lemma CEV_Diffusion_witness :
  CEV.Diffusion (CEV.ctor 0.08 0.3 0 65 0.25 0.5) 70 0
  = 0.3 * Rpower 65 (1 - 0.5) * Rpower 70 0.5.
Proof.
  apply (CEV_Diffusion 0.08 0.3 0 65 0.25 0.5 70 0); lra.
Defined.

(** With this scaling the diffusion at the initial value is that of the
    lognormal model, [sigma * S0], whatever the exponent. *)
Lemma CEV_Diffusion_at_initial (mu sigma q S0 T beta t : R) :
  0 < S0 ->
  CEV.Diffusion (CEV.ctor mu sigma q S0 T beta) S0 t = sigma * S0.
Proof.
  intro HS0. unfold CEV.Diffusion, CEV.ctor. cbn.
  rewrite Rmult_assoc, <- Rpower_plus.
  replace (1.0 - beta + beta) with 1 by lra.
  now rewrite Rpower_1.
Qed.

(** C6 as it is stated fails: with [sigma = 1], [beta = 2] and [S0 = 2] the
    diffusion at [x = 2] is [2], and [sigma * x ^ beta] is [4]. *)
Lemma CEV_Diffusion_counterexample :
  CEV.Diffusion (CEV.ctor 0 1 0 2 1 2) 2 0 = 2
  /\ CEV.Diffusion (CEV.ctor 0 1 0 2 1 2) 2 0 <> 1 * Rpower 2 2.
Proof.
  assert (H4 : Rpower 2 2 = 4).
  { change 2 with (INR 2) at 2. rewrite Rpower_pow by lra. lra. }
  assert (H2 : CEV.Diffusion (CEV.ctor 0 1 0 2 1 2) 2 0 = 2).
  { rewrite CEV_Diffusion_at_initial by lra. lra. }
  split; [exact H2|]. rewrite H2, H4. lra.
Qed.

(** ** Pricers: what a call changes *)

Lemma back_inv (v : Vec.t) (a : R) : Vec.back v = Ok a -> v <> [] /\ a = last v 0.
Proof.
  destruct v; simpl; intro E; [discriminate|].
  injection E as <-. split; [discriminate | reflexivity].
Qed.

Lemma bind_inv {A B : Type} (m : result A) (f : A -> result B) (b : B) :
  bind m f = Ok b -> exists a, m = Ok a /\ f a = Ok b.
Proof. destruct m as [a|e]; simpl; [eauto | discriminate]. Qed.

(** Reads a successful monadic computation back into its steps. *)
Ltac inv_ok H :=
  repeat match type of H with
         | bind _ _ = Ok _ =>
             let a := fresh "a" in
             let Ha := fresh "Ha" in
             apply bind_inv in H as (a & Ha & H)
         | Ok _ = Ok _ => injection H as H
         end.

Lemma European_ProcessPath_inv (p p' : EuropeanPricer.t) (path : Vec.t) :
  EuropeanPricer.ProcessPath p path = Ok p' ->
  path <> []
  /\ EuropeanPricer.m_payoff p' = EuropeanPricer.m_payoff p
  /\ EuropeanPricer.m_discounter p' = EuropeanPricer.m_discounter p
  /\ EuropeanPricer.sum p'
     = EuropeanPricer.sum p + EuropeanPricer.m_payoff p (last path 0)
  /\ EuropeanPricer.NSim p' = (EuropeanPricer.NSim p + 1)%Z
  /\ EuropeanPricer.price p' = EuropeanPricer.price p.
Proof.
  unfold EuropeanPricer.ProcessPath. intro H. inv_ok H.
  apply back_inv in Ha as [Hne ->]. subst p'. cbn. now repeat split.
Qed.

Lemma Asian_ProcessPath_inv (p p' : AsianPricer.t) (path : Vec.t) :
  AsianPricer.ProcessPath p path = Ok p' ->
  path <> []
  /\ AsianPricer.m_payoff p' = AsianPricer.m_payoff p
  /\ AsianPricer.m_discounter p' = AsianPricer.m_discounter p
  /\ AsianPricer.sum p'
     = AsianPricer.sum p
       + AsianPricer.m_payoff p (Vec.accumulate path / INR (length path))
  /\ AsianPricer.NSim p' = (AsianPricer.NSim p + 1)%Z
  /\ AsianPricer.price p' = AsianPricer.price p.
Proof.
  unfold AsianPricer.ProcessPath, AsianPricer.Average. intro H. inv_ok H.
  apply fdiv_inv in Ha as [Hne ->]. subst p'. cbn. repeat split.
  intros ->. now apply Hne.
Qed.

Lemma Barrier_ProcessPath_inv (p p' : BarrierPricer.t) (path : Vec.t) :
  BarrierPricer.ProcessPath p path = Ok p' ->
  path <> []
  /\ BarrierPricer.m_payoff p' = BarrierPricer.m_payoff p
  /\ BarrierPricer.m_discounter p' = BarrierPricer.m_discounter p
  /\ BarrierPricer.sum p'
     = BarrierPricer.sum p
       + (if BarrierPricer.knocked 170 path
          then 0 else BarrierPricer.m_payoff p (last path 0))
  /\ BarrierPricer.NSim p' = (BarrierPricer.NSim p + 1)%Z
  /\ BarrierPricer.price p' = BarrierPricer.price p.
Proof.
  unfold BarrierPricer.ProcessPath. intro H. inv_ok H. subst p'. cbn.
  replace 170.0 with 170 in * by lra.
  assert (Hne : path <> []).
  { intros ->. simpl in Ha. discriminate. }
  destruct (BarrierPricer.knocked 170 path); simpl in Ha.
  - injection Ha as <-. repeat split; [exact Hne | f_equal; lra].
  - inv_ok Ha. apply back_inv in Ha0 as [_ ->]. subst a. now repeat split.
Qed.

(** The bridge pricer's loop leaves everything but the counter and the
    engine as it was. *)
Lemma scan_frame {E : Type} (dist : E -> R * E) (L : R) (path : Vec.t)
      (trips : nat) :
  forall (n : nat) (p p' : BrownianBridgePricer.t E) (crossed : bool),
    BrownianBridgePricer.scan dist L trips n p path = Ok (crossed, p') ->
    BrownianBridgePricer.m_payoff p' = BrownianBridgePricer.m_payoff p
    /\ BrownianBridgePricer.m_discounter p' = BrownianBridgePricer.m_discounter p
    /\ BrownianBridgePricer.price p' = BrownianBridgePricer.price p
    /\ BrownianBridgePricer.sum p' = BrownianBridgePricer.sum p
    /\ BrownianBridgePricer.NSim p' = BrownianBridgePricer.NSim p
    /\ BrownianBridgePricer.dt p' = BrownianBridgePricer.dt p
    /\ BrownianBridgePricer.sde p' = BrownianBridgePricer.sde p.
Proof.
  induction trips as [|trips IH]; intros n p p' crossed H.
  - simpl in H. injection H as _ <-. now repeat split.
  - cbn [BrownianBridgePricer.scan] in H. inv_ok H.
    destruct (dist (BrownianBridgePricer.rng p)) as [u g].
    destruct (Rgeb a0 L || Rgeb (exp a1) u).
    + injection H as _ <-. now repeat split.
    + apply IH in H. cbn in H. exact H.
Qed.

Lemma Bridge_ProcessPath_inv {E : Type} (dist : E -> R * E)
      (p p' : BrownianBridgePricer.t E) (path : Vec.t) :
  BrownianBridgePricer.ProcessPath dist p path = Ok p' ->
  BrownianBridgePricer.m_payoff p' = BrownianBridgePricer.m_payoff p
  /\ BrownianBridgePricer.m_discounter p' = BrownianBridgePricer.m_discounter p
  /\ BrownianBridgePricer.NSim p' = (BrownianBridgePricer.NSim p + 1)%Z
  /\ BrownianBridgePricer.price p' = BrownianBridgePricer.price p.
Proof.
  unfold BrownianBridgePricer.ProcessPath. intro H. inv_ok H.
  destruct a as [crossed q]. inv_ok H. subst p'. cbn.
  apply scan_frame in Ha as (Hpay & Hdisc & Hprice & _ & HNSim & _).
  now rewrite Hpay, Hdisc, HNSim, Hprice.
Qed.

(** ** Pricers: sequences of paths *)

(** What every [ProcessPath] call carries one step further holds after the
    whole sequence, [n] counting the calls. *)
Lemma process_all_steps {P : Type} `{IPricer P} (I : nat -> P -> Prop) :
  (forall n p path p', ProcessPath p path = Ok p' -> I n p -> I (S n) p') ->
  forall paths n p p',
    process_all p paths = Ok p' -> I n p -> I (n + length paths)%nat p'.
Proof.
  intros Hstep paths.
  induction paths as [|path rest IH]; intros n p p' Hrun Hn; simpl in Hrun.
  - injection Hrun as <-. now rewrite Nat.add_0_r.
  - inv_ok Hrun. simpl. rewrite Nat.add_succ_r.
    apply (IH (S n) a); [assumption | now apply (Hstep n p path)].
Qed.

Lemma INR_Z_of_nat_S_neq_0 (n : nat) : IZR (Z.of_nat (S n)) <> 0.
Proof. apply not_0_IZR. lia. Qed.

Section Accumulators.

Variables (payoff : R -> R) (discounter : unit -> R).

Lemma European_after (paths : list Vec.t) (p : EuropeanPricer.t) :
  process_all (EuropeanPricer.ctor payoff discounter) paths = Ok p ->
  EuropeanPricer.NSim p = Z.of_nat (length paths)
  /\ EuropeanPricer.price p = 0.
Proof.
  intro Hrun.
  apply (process_all_steps
           (fun n q => EuropeanPricer.NSim q = Z.of_nat n
                       /\ EuropeanPricer.price q = 0)) with (n := O) in Hrun.
  - exact Hrun.
  - intros n q path q' Hq [HN Hp].
    apply European_ProcessPath_inv in Hq as (_ & _ & _ & _ & HN' & Hp').
    split; [lia | congruence].
  - split; [reflexivity | cbn; lra].
Qed.

Lemma Asian_after (paths : list Vec.t) (p : AsianPricer.t) :
  process_all (AsianPricer.ctor payoff discounter) paths = Ok p ->
  AsianPricer.NSim p = Z.of_nat (length paths)
  /\ AsianPricer.price p = 0.
Proof.
  intro Hrun.
  apply (process_all_steps
           (fun n q => AsianPricer.NSim q = Z.of_nat n
                       /\ AsianPricer.price q = 0)) with (n := O) in Hrun.
  - exact Hrun.
  - intros n q path q' Hq [HN Hp].
    apply Asian_ProcessPath_inv in Hq as (_ & _ & _ & _ & HN' & Hp').
    split; [lia | congruence].
  - split; [reflexivity | cbn; lra].
Qed.

Lemma Barrier_after (paths : list Vec.t) (p : BarrierPricer.t) :
  process_all (BarrierPricer.ctor payoff discounter) paths = Ok p ->
  BarrierPricer.NSim p = Z.of_nat (length paths)
  /\ BarrierPricer.price p = 0.
Proof.
  intro Hrun.
  apply (process_all_steps
           (fun n q => BarrierPricer.NSim q = Z.of_nat n
                       /\ BarrierPricer.price q = 0)) with (n := O) in Hrun.
  - exact Hrun.
  - intros n q path q' Hq [HN Hp].
    apply Barrier_ProcessPath_inv in Hq as (_ & _ & _ & _ & HN' & Hp').
    split; [lia | congruence].
  - split; [reflexivity | cbn; lra].
Qed.

Lemma Bridge_after {E : Type} (dist : E -> R * E) (isde : GBM.t)
      (step : R) (seed : E) (paths : list Vec.t)
      (p : BrownianBridgePricer.t E) :
  @process_all _ (BrownianBridgePricer_IPricer dist)
    (BrownianBridgePricer.ctor payoff discounter isde step seed) paths = Ok p ->
  BrownianBridgePricer.NSim p = Z.of_nat (length paths)
  /\ BrownianBridgePricer.price p = 0.
Proof.
  intro Hrun.
  apply (@process_all_steps _ (BrownianBridgePricer_IPricer dist)
           (fun n q => BrownianBridgePricer.NSim q = Z.of_nat n
                       /\ BrownianBridgePricer.price q = 0)) with (n := O) in Hrun.
  - exact Hrun.
  - intros n q path q' Hq [HN Hp].
    apply Bridge_ProcessPath_inv in Hq as (_ & _ & HN' & Hp').
    split; [lia | congruence].
  - split; [reflexivity | cbn; lra].
Qed.

End Accumulators.

(** C10.  Whatever paths a pricer has processed, [Price] is 0 as long as
    [PostProcess] has not been called: the constructors set the price to
    0 and [ProcessPath] leaves it alone. *)
Theorem Price_before_PostProcess :
  (forall payoff discounter paths (p : EuropeanPricer.t),
      process_all (EuropeanPricer.ctor payoff discounter) paths = Ok p ->
      Price p = 0)
  /\ (forall payoff discounter paths (p : AsianPricer.t),
        process_all (AsianPricer.ctor payoff discounter) paths = Ok p ->
        Price p = 0)
  /\ (forall payoff discounter paths (p : BarrierPricer.t),
        process_all (BarrierPricer.ctor payoff discounter) paths = Ok p ->
        Price p = 0)
  /\ (forall (E : Type) (dist : E -> R * E) payoff discounter isde step seed
             paths (p : BrownianBridgePricer.t E),
        @process_all _ (BrownianBridgePricer_IPricer dist)
          (BrownianBridgePricer.ctor payoff discounter isde step seed) paths
        = Ok p ->
        BrownianBridgePricer.Price p = 0).
Proof.
  repeat split; intros.
  - now apply (European_after payoff discounter paths).
  - now apply (Asian_after payoff discounter paths).
  - now apply (Barrier_after payoff discounter paths).
  - now apply (Bridge_after payoff discounter dist isde step seed paths).
Qed.

Lemma Price_before_PostProcess_witness :
  exists p : EuropeanPricer.t,
    process_all (EuropeanPricer.ctor (fun S => Rmax (S - 65) 0) (fun _ => 1))
                [[65; 70]; [65; 60]] = Ok p
    /\ Price p = 0.
Proof.
  eexists. split; [reflexivity|].
  apply (proj1 Price_before_PostProcess (fun S => Rmax (S - 65) 0) (fun _ => 1)
               [[65; 70]; [65; 60]]).
  reflexivity.
Defined.

(** C8.  [PostProcess] after the paths of a non-empty sequence sets the
    price to [DiscountFactor * sum / k], [k] being their number; with no
    path processed it divides by zero. *)
Theorem PostProcess_finalizes :
  (forall payoff discounter,
      finalizes EuropeanPricer.sum (EuropeanPricer.ctor payoff discounter))
  /\ (forall payoff discounter,
        finalizes AsianPricer.sum (AsianPricer.ctor payoff discounter))
  /\ (forall payoff discounter,
        finalizes BarrierPricer.sum (BarrierPricer.ctor payoff discounter))
  /\ (forall (E : Type) (dist : E -> R * E) payoff discounter isde step seed,
        @finalizes _ (BrownianBridgePricer_IPricer dist)
          BrownianBridgePricer.sum
          (BrownianBridgePricer.ctor payoff discounter isde step seed)).
Proof.
  repeat split; intros; intros paths p Hrun.
  - apply European_after in Hrun as [HN _].
    cbn [PostProcess EuropeanPricer_IPricer]. unfold EuropeanPricer.PostProcess.
    rewrite HN. destruct paths as [|path rest].
    + cbn [length Z.of_nat]. now rewrite fdiv_zero.
    + rewrite fdiv_ok by apply INR_Z_of_nat_S_neq_0. cbn [bind].
      eexists. split; [reflexivity|]. rewrite INR_IZR_INZ. reflexivity.
  - apply Asian_after in Hrun as [HN _].
    cbn [PostProcess AsianPricer_IPricer]. unfold AsianPricer.PostProcess.
    rewrite HN. destruct paths as [|path rest].
    + cbn [length Z.of_nat]. now rewrite fdiv_zero.
    + rewrite fdiv_ok by apply INR_Z_of_nat_S_neq_0. cbn [bind].
      eexists. split; [reflexivity|]. rewrite INR_IZR_INZ. reflexivity.
  - apply Barrier_after in Hrun as [HN _].
    cbn [PostProcess BarrierPricer_IPricer]. unfold BarrierPricer.PostProcess.
    rewrite HN. destruct paths as [|path rest].
    + cbn [length Z.of_nat]. now rewrite fdiv_zero.
    + rewrite fdiv_ok by apply INR_Z_of_nat_S_neq_0. cbn [bind].
      eexists. split; [reflexivity|]. rewrite INR_IZR_INZ. reflexivity.
  - apply Bridge_after in Hrun as [HN _].
    cbn [PostProcess BrownianBridgePricer_IPricer].
    unfold BrownianBridgePricer.PostProcess.
    rewrite HN. destruct paths as [|path rest].
    + cbn [length Z.of_nat]. now rewrite fdiv_zero.
    + rewrite fdiv_ok by apply INR_Z_of_nat_S_neq_0. cbn [bind].
      eexists. split; [reflexivity|]. rewrite INR_IZR_INZ. reflexivity.
Qed.

Lemma PostProcess_finalizes_witness :
  exists p p' : EuropeanPricer.t,
    process_all (EuropeanPricer.ctor (fun S => Rmax (S - 65) 0) (fun _ => 1))
                [[65; 70]] = Ok p
    /\ PostProcess p = Ok p'
    /\ Price p' = DiscountFactor p * EuropeanPricer.sum p / INR 1.
Proof.
  eexists.
  destruct (proj1 PostProcess_finalizes (fun S => Rmax (S - 65) 0) (fun _ => 1)
                  [[65; 70]] _ eq_refl) as (p' & Hpost & Hprice).
  exists p'. repeat split; assumption.
Defined.

(** ** Knock-out against vanilla *)

Lemma European_ProcessPath_ok (p : EuropeanPricer.t) (path : Vec.t) :
  path <> [] ->
  EuropeanPricer.ProcessPath p path
  = Ok {| EuropeanPricer.m_payoff := EuropeanPricer.m_payoff p;
          EuropeanPricer.m_discounter := EuropeanPricer.m_discounter p;
          EuropeanPricer.sum
            := EuropeanPricer.sum p + EuropeanPricer.m_payoff p (last path 0);
          EuropeanPricer.NSim := EuropeanPricer.NSim p + 1;
          EuropeanPricer.price := EuropeanPricer.price p |}.
Proof.
  intro Hne. unfold EuropeanPricer.ProcessPath. now rewrite back_ok.
Qed.

Lemma Barrier_ProcessPath_ok (p : BarrierPricer.t) (path : Vec.t) :
  path <> [] ->
  BarrierPricer.ProcessPath p path
  = Ok {| BarrierPricer.m_payoff := BarrierPricer.m_payoff p;
          BarrierPricer.m_discounter := BarrierPricer.m_discounter p;
          BarrierPricer.price := BarrierPricer.price p;
          BarrierPricer.sum
            := BarrierPricer.sum p
               + (if negb (BarrierPricer.knocked 170.0 path)
                  then BarrierPricer.m_payoff p (last path 0) else 0.0);
          BarrierPricer.sum2 := BarrierPricer.sum2 p;
          BarrierPricer.NSim := BarrierPricer.NSim p + 1 |}.
Proof.
  intro Hne. unfold BarrierPricer.ProcessPath.
  destruct (BarrierPricer.knocked 170.0 path); cbn [negb bind].
  - reflexivity.
  - now rewrite back_ok.
Qed.

Section KnockOut.

Variables (payoff : R -> R) (discounter : unit -> R).
Hypothesis payoff_nonneg : forall x, 0 <= payoff x.

Lemma below_process_all (paths : list Vec.t) :
  forall b v, below payoff discounter b v ->
    match process_all b paths, process_all v paths with
    | Ok b', Ok v' => below payoff discounter b' v' /\ Forall (fun path => path <> []) paths
    | Err _, Err _ => Exists (fun path => path = []) paths
    | _, _ => False
    end.
Proof using payoff_nonneg.
  induction paths as [|path rest IH]; intros b v Hbv; cbn [process_all].
  - split; [exact Hbv | constructor].
  - cbn [ProcessPath BarrierPricer_IPricer EuropeanPricer_IPricer].
    destruct path as [|x path'].
    + cbn. now constructor.
    + rewrite Barrier_ProcessPath_ok, European_ProcessPath_ok by discriminate.
      cbn [bind].
      match goal with
      | |- context [@process_all BarrierPricer.t _ ?b' rest] =>
          match goal with
          | |- context [@process_all EuropeanPricer.t _ ?v' rest] =>
              specialize (IH b' v')
          end
      end.
      destruct Hbv as (Hpb & Hpv & Hdb & Hdv & HN & Hsum).
      lapply IH.
      * clear IH. intro IH.
        destruct (@process_all BarrierPricer.t _ _ rest);
          destruct (@process_all EuropeanPricer.t _ _ rest); try exact IH.
        -- destruct IH as [IH HF]. split; [exact IH|].
           constructor; [discriminate | exact HF].
        -- now apply Exists_cons_tl.
      * clear IH. unfold below. cbn -[last]. repeat split; try assumption.
        -- now rewrite HN.
        -- rewrite Hpb, Hpv.
           pose proof (payoff_nonneg (last (x :: path') 0)).
           destruct (negb _); lra.
Qed.

End KnockOut.

(** C3.  Fed the same paths, with the same non-negative payoff and the
    same non-negative discount factor, the Barrier pricer's finalized
    price is at most the Vanilla pricer's: both prices exist for a
    non-empty sequence of non-empty paths, and whenever both exist they
    are in this order.  The rebate 0 and the barrier 170 are the
    constants of the code. *)
Theorem Barrier_price_le_Vanilla (payoff : R -> R) (discounter : unit -> R)
        (paths : list Vec.t) :
  (forall x, 0 <= payoff x) ->
  0 <= discounter tt ->
  (paths <> [] -> Forall (fun path => path <> []) paths ->
   exists b v,
     finalized_price (BarrierPricer.ctor payoff discounter) paths = Ok b
     /\ finalized_price (EuropeanPricer.ctor payoff discounter) paths = Ok v)
  /\ (forall b v,
        finalized_price (BarrierPricer.ctor payoff discounter) paths = Ok b ->
        finalized_price (EuropeanPricer.ctor payoff discounter) paths = Ok v ->
        b <= v).
Proof.
  intros Hpay Hdisc.
  pose proof (below_process_all payoff discounter Hpay paths
                (BarrierPricer.ctor payoff discounter)
                (EuropeanPricer.ctor payoff discounter)) as Hrun.
  lapply Hrun; [clear Hrun; intro Hrun | unfold below; cbn; repeat split; lra].
  unfold finalized_price.
  destruct (process_all (BarrierPricer.ctor payoff discounter) paths)
    as [pb|eb] eqn:Eb;
    destruct (process_all (EuropeanPricer.ctor payoff discounter) paths)
    as [pv|ev] eqn:Ev; try contradiction.
  - destruct Hrun as [(Hpb & Hpv & Hdb & Hdv & HN & Hsum) _].
    apply Barrier_after in Eb as [HNb _].
    apply European_after in Ev as [HNv _].
    cbn [bind PostProcess BarrierPricer_IPricer EuropeanPricer_IPricer].
    unfold BarrierPricer.PostProcess, EuropeanPricer.PostProcess,
      BarrierPricer.DiscountFactor, EuropeanPricer.DiscountFactor.
    rewrite HNb, HNv, Hdb, Hdv.
    destruct paths as [|path rest].
    + cbn [length Z.of_nat]. rewrite !fdiv_zero. cbn [bind].
      split; [congruence | discriminate].
    + rewrite !fdiv_ok by apply INR_Z_of_nat_S_neq_0. cbn [bind].
      split; [eauto|].
      intros b v [= <-] [= <-]. cbn.
      apply Rmult_le_compat_r.
      * apply Rlt_le, Rinv_0_lt_compat, IZR_lt. lia.
      * now apply Rmult_le_compat_l.
  - split; [|cbn; discriminate].
    intros _ HF. exfalso.
    apply Exists_exists in Hrun as (path & Hin & ->).
    rewrite Forall_forall in HF. now apply (HF [] Hin).
Qed.

Lemma Barrier_price_le_Vanilla_witness :
  exists b v,
    finalized_price
      (BarrierPricer.ctor (OptionData.getPayOff (OptionData.ctor 65 0.25 0.08 0.3 0 1))
                          (OptionData.getDiscounter (OptionData.ctor 65 0.25 0.08 0.3 0 1)))
      [[65; 180]; [65; 70]] = Ok b
    /\ finalized_price
         (EuropeanPricer.ctor (OptionData.getPayOff (OptionData.ctor 65 0.25 0.08 0.3 0 1))
                              (OptionData.getDiscounter (OptionData.ctor 65 0.25 0.08 0.3 0 1)))
         [[65; 180]; [65; 70]] = Ok v
    /\ b <= v.
Proof.
  destruct (Barrier_price_le_Vanilla
              (OptionData.getPayOff (OptionData.ctor 65 0.25 0.08 0.3 0 1))
              (OptionData.getDiscounter (OptionData.ctor 65 0.25 0.08 0.3 0 1))
              [[65; 180]; [65; 70]]) as [Hex Hle].
  - intro x. unfold OptionData.getPayOff. cbn.
    eapply Rle_trans; [|apply Rmax_r]. lra.
  - unfold OptionData.getDiscounter. apply Rlt_le, exp_pos.
  - destruct Hex as (b & v & Hb & Hv).
    + discriminate.
    + repeat constructor; discriminate.
    + exists b, v. repeat split; try assumption. now apply Hle.
Defined.

(** ** The bridge pricer's scan *)

Lemma engine_after_S {E : Type} (dist : E -> R * E) (n : nat) :
  forall g, engine_after dist (S n) g = snd (dist (engine_after dist n g)).
Proof.
  induction n as [|n IH]; intro g; [reflexivity|].
  change (engine_after dist (S (S n)) g)
    with (engine_after dist (S n) (snd (dist g))).
  now rewrite IH.
Qed.

Section Scan.

Context {E : Type} (dist : E -> R * E).
Variables (L : R) (path : Vec.t) (g0 : E).

(** From the pair [n] on, with the engine [n - 1] draws after [g0]: the
    loop either stops at the first pair [m] that tests positive, having
    drawn [m] variates, or runs through all pairs, none testing
    positive. *)
Lemma scan_spec (trips : nat) :
  forall (n : nat) (p : BrownianBridgePricer.t E),
    (1 <= n)%nat ->
    (n + trips = length path)%nat ->
    BrownianBridgePricer.rng p = engine_after dist (n - 1) g0 ->
    (forall j, (n <= j < length path)%nat ->
       bridge_divisor (BrownianBridgePricer.sde p) (BrownianBridgePricer.dt p)
                      path j <> 0) ->
    exists crossed p',
      BrownianBridgePricer.scan dist L trips n p path = Ok (crossed, p')
      /\ ((crossed = true
           /\ exists m, (n <= m < length path)%nat
                /\ bridge_hit dist g0 L (BrownianBridgePricer.sde p)
                              (BrownianBridgePricer.dt p) path m
                /\ (forall j, (n <= j < m)%nat ->
                      ~ bridge_hit dist g0 L (BrownianBridgePricer.sde p)
                                   (BrownianBridgePricer.dt p) path j)
                /\ BrownianBridgePricer.rng p' = engine_after dist m g0)
          \/ (crossed = false
              /\ (forall j, (n <= j < length path)%nat ->
                    ~ bridge_hit dist g0 L (BrownianBridgePricer.sde p)
                                 (BrownianBridgePricer.dt p) path j)
              /\ BrownianBridgePricer.rng p'
                 = engine_after dist (length path - 1) g0)).
Proof.
  induction trips as [|trips IH]; intros n p Hn Hlen Hrng Hdiv.
  - exists false, p. split; [reflexivity|]. right.
    split; [reflexivity|]. split; [intros j Hj; lia|].
    rewrite Hrng. f_equal. lia.
  - cbn [BrownianBridgePricer.scan].
    rewrite !at_ok by lia. cbn [bind].
    pose proof (Hdiv n ltac:(lia)) as Hdn. unfold bridge_divisor in Hdn.
    cbv zeta in Hdn. rewrite fdiv_ok by exact Hdn. cbn [bind].
    assert (Hu : variate dist (n - 1) g0 = fst (dist (BrownianBridgePricer.rng p)))
      by (unfold variate; now rewrite Hrng).
    assert (Hg : engine_after dist n g0 = snd (dist (BrownianBridgePricer.rng p))).
    { replace n with (S (n - 1)) at 1 by lia.
      now rewrite engine_after_S, Hrng. }
    destruct (dist (BrownianBridgePricer.rng p)) as [u g]. cbn [fst snd] in Hu, Hg.
    set (P := exp _).
    assert (HP : P = bridge_P L (BrownianBridgePricer.sde p)
                              (BrownianBridgePricer.dt p) path n).
    { unfold P, bridge_P, bridge_divisor. do 3 f_equal. lra. }
    destruct (Rgeb (nth n path 0) L || Rgeb P u) eqn:Htest.
    + eexists true, _. split; [reflexivity|]. left. split; [reflexivity|].
      exists n. split; [lia|]. split; [|split].
      * unfold bridge_hit. rewrite Hu, <- HP.
        apply orb_true_iff in Htest as [Ht|Ht]; apply Rgeb_true in Ht; auto.
      * intros j Hj. lia.
      * cbn. now symmetry.
    + apply orb_false_iff in Htest as [Ht1 Ht2].
      apply Rgeb_false in Ht1, Ht2.
      assert (Hmiss : ~ bridge_hit dist g0 L (BrownianBridgePricer.sde p)
                        (BrownianBridgePricer.dt p) path n).
      { unfold bridge_hit. rewrite Hu, <- HP. intros [H|H]; lra. }
      match goal with
      | |- context [BrownianBridgePricer.scan dist L trips (S n) ?q path] =>
          destruct (IH (S n) q) as (crossed & p' & Hscan & Hcases)
      end.
      * lia.
      * lia.
      * cbn. rewrite <- Hg. f_equal. lia.
      * intros j Hj. cbn. apply Hdiv. lia.
      * exists crossed, p'. split; [exact Hscan|]. cbn in Hcases.
        destruct Hcases as [(-> & m & Hm & Hhit & Hfirst & Hr)
                           |(-> & Hnone & Hr)].
        -- left. split; [reflexivity|]. exists m.
           split; [lia|]. split; [exact Hhit|]. split; [|exact Hr].
           intros j Hj. destruct (Nat.eq_dec j n) as [->|Hne]; [exact Hmiss|].
           apply Hfirst. lia.
        -- right. split; [reflexivity|]. split; [|exact Hr].
           intros j Hj. destruct (Nat.eq_dec j n) as [->|Hne]; [exact Hmiss|].
           apply Hnone. lia.
Qed.

(** Every read of the loop is inside the path: the only way it fails
    is a zero divisor. *)
Lemma scan_in_bounds (trips : nat) :
  forall (n : nat) (p : BrownianBridgePricer.t E),
    (1 <= n)%nat ->
    (n + trips = length path)%nat ->
    match BrownianBridgePricer.scan dist L trips n p path with
    | Ok _ => True
    | Err e => e = DivisionByZero
    end.
Proof.
  induction trips as [|trips IH]; intros n p Hn Hlen; [exact I|].
  cbn [BrownianBridgePricer.scan].
  rewrite !at_ok by lia. cbn [bind].
  unfold fdiv. destruct (Req_dec_T _ 0); [reflexivity|]. cbn [bind].
  destruct (dist (BrownianBridgePricer.rng p)) as [u g].
  destruct (_ || _); [exact I|].
  apply IH; lia.
Qed.

End Scan.

(** C1, as the code has it.  On a path with at least one value and no zero
    divisor, the bridge pricer scans the pairs ([path[n - 1]], [path[n]])
    in the order [n = 1, 2, ...], each with its probability [P] and a fresh
    draw [u] of the pricer's own engine, and stops at the first pair with
    [path[n] >= L] or [P >= u].  If there is such a pair it adds the rebate 0
    and has drawn as many variates as pairs up to that one; otherwise it adds
    [payoff (path.back())] and has drawn one variate per pair.  [path[0]]
    is not compared with the barrier. *)
Theorem Bridge_ProcessPath {E : Type} (dist : E -> R * E)
        (p : BrownianBridgePricer.t E) (path : Vec.t) :
  let L := 170 in
  let sde := BrownianBridgePricer.sde p in
  let dt := BrownianBridgePricer.dt p in
  let g := BrownianBridgePricer.rng p in
  path <> [] ->
  (forall n, (1 <= n < length path)%nat -> bridge_divisor sde dt path n <> 0) ->
  exists p',
    BrownianBridgePricer.ProcessPath dist p path = Ok p'
    /\ BrownianBridgePricer.NSim p' = (BrownianBridgePricer.NSim p + 1)%Z
    /\ BrownianBridgePricer.price p' = BrownianBridgePricer.price p
    /\ ((exists m, (1 <= m < length path)%nat
           /\ bridge_hit dist g L sde dt path m
           /\ (forall j, (1 <= j < m)%nat -> ~ bridge_hit dist g L sde dt path j)
           /\ BrownianBridgePricer.sum p' = BrownianBridgePricer.sum p + 0
           /\ BrownianBridgePricer.rng p' = engine_after dist m g)
        \/ ((forall j, (1 <= j < length path)%nat ->
               ~ bridge_hit dist g L sde dt path j)
            /\ BrownianBridgePricer.sum p'
               = BrownianBridgePricer.sum p
                 + BrownianBridgePricer.m_payoff p (last path 0)
            /\ BrownianBridgePricer.rng p'
               = engine_after dist (length path - 1) g)).
Proof.
  intros L sde dt g Hne Hdiv.
  destruct (scan_spec dist 170.0 path g (length path - 1) 1 p)
    as (crossed & q & Hscan & Hcases).
  - lia.
  - destruct path; [congruence | simpl; lia].
  - reflexivity.
  - intros j Hj. now apply Hdiv.
  - unfold BrownianBridgePricer.ProcessPath. rewrite Hscan. cbn [bind].
    apply scan_frame in Hscan as (Hpay & _ & Hprice & Hsum & HNSim & _).
    replace 170.0 with L in Hcases by (unfold L; lra).
    destruct Hcases as [(-> & m & Hm & Hhit & Hfirst & Hr)
                       |(-> & Hnone & Hr)]; cbn [bind].
    + eexists. split; [reflexivity|]. cbn.
      rewrite HNSim, Hprice, Hsum. split; [reflexivity|]. split; [reflexivity|].
      left. exists m. repeat (split; [assumption|]). split; [f_equal; lra | exact Hr].
    + rewrite back_ok by exact Hne. cbn [bind].
      eexists. split; [reflexivity|]. cbn -[last].
      rewrite HNSim, Hprice, Hsum, Hpay. split; [reflexivity|]. split; [reflexivity|].
      right. split; [exact Hnone|]. split; [reflexivity | exact Hr].
Qed.

Lemma Bridge_ProcessPath_witness :
  exists p',
    BrownianBridgePricer.ProcessPath testDist testBridge [65; 66; 180] = Ok p'
    /\ BrownianBridgePricer.NSim p' = 1%Z
    /\ BrownianBridgePricer.price p' = 0.
Proof.
  destruct (Bridge_ProcessPath testDist testBridge [65; 66; 180])
    as (p' & Hrun & HNSim & Hprice & _).
  - discriminate.
  - intros n Hn. simpl in Hn. unfold bridge_divisor, GBM.Diffusion. cbn.
    assert (n = 1 \/ n = 2)%nat as [-> | ->] by lia; cbn; lra.
  - exists p'. split; [exact Hrun|]. split; [exact HNSim|].
    rewrite Hprice. cbn. lra.
Defined.

(** C1 as it is stated fails.  A path of the single value 200, above the
    barrier 170, has no pair: no crossing is recorded and the payoff 135 is
    added.  On the path 65, 200, 65 the first pair ends the scan: one
    variate is drawn, the second pair is not looked at. *)
Lemma Bridge_ProcessPath_counterexample :
  (nth 0 [200] 0 >= 170
   /\ exists p',
       BrownianBridgePricer.ProcessPath testDist testBridge [200] = Ok p'
       /\ BrownianBridgePricer.sum p' = 135
       /\ BrownianBridgePricer.sum p' <> BrownianBridgePricer.sum testBridge + 0)
  /\ (exists p',
         BrownianBridgePricer.ProcessPath testDist testBridge [65; 200; 65] = Ok p'
         /\ BrownianBridgePricer.rng p' = 1%nat
         /\ BrownianBridgePricer.rng p'
            <> engine_after testDist 2 (BrownianBridgePricer.rng testBridge)).
Proof.
  split.
  - split; [simpl; lra|].
    eexists. split; [reflexivity|].
    assert (H : BrownianBridgePricer.m_payoff testBridge 200 = 135).
    { cbn. unfold OptionData.getPayOff. cbn. rewrite Rmax_left; lra. }
    cbn -[Rmax] in *. rewrite H. cbn. split; lra.
  - unfold BrownianBridgePricer.ProcessPath.
    cbn [length Nat.sub BrownianBridgePricer.scan].
    rewrite !at_ok by (simpl; lia). cbn [bind nth].
    rewrite fdiv_ok by (unfold GBM.Diffusion; cbn; lra). cbn [bind].
    cbn [testDist tape_dist testBridge BrownianBridgePricer.ctor
         BrownianBridgePricer.rng].
    rewrite (proj2 (Rgeb_true 200 170.0)) by lra. cbn [orb bind].
    eexists. split; [reflexivity|]. cbn. split; [reflexivity | discriminate].
Qed.

(** ** Paths without a value *)

(** C9.  [ProcessPath] needs a path with at least one value.  On the empty
    path the Vanilla, Barrier and bridge pricers read [back()] of an empty
    vector and the Asian pricer divides by the length 0.  On a path with a
    value every read is inside the path and the divisor of the average is
    positive: the Vanilla, Barrier and Asian pricers return, and the bridge
    pricer fails on a zero divisor [sigma_local^2 * dt] if at all. *)
Theorem ProcessPath_nonempty_path :
  (forall p : EuropeanPricer.t, ProcessPath p [] = Err OutOfBounds)
  /\ (forall p : BarrierPricer.t, ProcessPath p [] = Err OutOfBounds)
  /\ (forall (E : Type) (dist : E -> R * E) (p : BrownianBridgePricer.t E),
        BrownianBridgePricer.ProcessPath dist p [] = Err OutOfBounds)
  /\ (forall p : AsianPricer.t,
        INR (length (@nil R)) = 0 /\ ProcessPath p [] = Err DivisionByZero)
  /\ (forall (p : EuropeanPricer.t) (path : Vec.t),
        path <> [] -> exists p', ProcessPath p path = Ok p')
  /\ (forall (p : BarrierPricer.t) (path : Vec.t),
        path <> [] -> exists p', ProcessPath p path = Ok p')
  /\ (forall (p : AsianPricer.t) (path : Vec.t),
        path <> [] ->
        0 < INR (length path) /\ exists p', ProcessPath p path = Ok p')
  /\ (forall (E : Type) (dist : E -> R * E) (p : BrownianBridgePricer.t E)
             (path : Vec.t),
        path <> [] ->
        match BrownianBridgePricer.ProcessPath dist p path with
        | Ok _ => True
        | Err e => e = DivisionByZero
        end).
Proof.
  split; [reflexivity|]. split; [reflexivity|]. split; [reflexivity|].
  split.
  { intro p. split; [reflexivity|].
    cbn [ProcessPath AsianPricer_IPricer].
    unfold AsianPricer.ProcessPath, AsianPricer.Average.
    cbn [length INR]. now rewrite fdiv_zero. }
  split.
  { intros p path Hne. cbn [ProcessPath EuropeanPricer_IPricer].
    rewrite European_ProcessPath_ok by exact Hne. eauto. }
  split.
  { intros p path Hne. cbn [ProcessPath BarrierPricer_IPricer].
    rewrite Barrier_ProcessPath_ok by exact Hne. eauto. }
  split.
  { intros p path Hne.
    assert (Hpos : 0 < INR (length path)).
    { apply lt_0_INR. destruct path; [congruence | simpl; lia]. }
    split; [exact Hpos|].
    cbn [ProcessPath AsianPricer_IPricer].
    unfold AsianPricer.ProcessPath, AsianPricer.Average.
    rewrite fdiv_ok by lra. cbn [bind]. eauto. }
  intros E dist p path Hne.
  unfold BrownianBridgePricer.ProcessPath.
  pose proof (scan_in_bounds dist 170.0 path (length path - 1) 1 p) as Hscan.
  lapply Hscan; [clear Hscan; intro Hscan | lia].
  lapply Hscan; [clear Hscan; intro Hscan
                | destruct path; [congruence | simpl; lia]].
  destruct (BrownianBridgePricer.scan dist 170.0 (length path - 1) 1 p path)
    as [[crossed q]|e]; cbn [bind]; [|exact Hscan].
  destruct crossed; cbn [bind]; [exact I|].
  rewrite back_ok by exact Hne. exact I.
Qed.

Lemma ProcessPath_nonempty_path_witness :
  exists p' : AsianPricer.t,
    ProcessPath (AsianPricer.ctor (OptionData.getPayOff testOption)
                                  (OptionData.getDiscounter testOption))
                [65; 66; 67] = Ok p'.
Proof.
  destruct ProcessPath_nonempty_path as (_ & _ & _ & _ & _ & _ & HA & _).
  destruct (HA (AsianPricer.ctor (OptionData.getPayOff testOption)
                                 (OptionData.getDiscounter testOption))
               [65; 66; 67]) as [_ Hex].
  - discriminate.
  - exact Hex.
Defined.

(** ** The mediator's loops *)

Section Generation.

Context {F G : Type} `{IFdm F} `{IRng G}.

Lemma advance_from_length (fdm : F) (zs : list R) :
  forall n v, length (advance_from fdm n v zs) = length zs.
Proof.
  induction zs as [|z zs IH]; intros n v; simpl; [reflexivity|].
  now rewrite IH.
Qed.

(** Every generated value is one [advance] from the value before it. *)
Lemma advance_from_nth (fdm : F) (zs : list R) :
  forall n v j,
    (j < length zs)%nat ->
    nth j (advance_from fdm n v zs) 0
    = advance fdm (nth j (v :: advance_from fdm n v zs) 0)
              (nth (n + j - 1) (FdmBase.x (base fdm)) 0)
              (FdmBase.k (base fdm)) (nth j zs 0).
Proof.
  induction zs as [|z zs IH]; intros n v j Hj; simpl in Hj; [lia|].
  destruct j as [|j].
  - cbn [advance_from nth]. now rewrite Nat.add_0_r.
  - cbn [advance_from]. cbv zeta.
    change (nth (S j) (?a :: ?l) 0) with (nth j l 0).
    rewrite IH by lia.
    replace (S n + j - 1)%nat with (n + S j - 1)%nat by lia.
    reflexivity.
Qed.

Lemma variates_length (n : nat) : forall g : G,
    length (variates GenerateRn n g) = n.
Proof. induction n as [|n IH]; intro g; simpl; [reflexivity | now rewrite IH]. Qed.

Lemma engine_after_add (a b : nat) : forall g : G,
    engine_after GenerateRn (a + b) g
    = engine_after GenerateRn b (engine_after GenerateRn a g).
Proof. induction a as [|a IH]; intro g; simpl; [reflexivity | apply IH]. Qed.

Lemma variates_add (a b : nat) : forall g : G,
    variates GenerateRn (a + b) g
    = variates GenerateRn a g
      ++ variates GenerateRn b (engine_after GenerateRn a g).
Proof.
  induction a as [|a IH]; intro g; simpl; [reflexivity|].
  now rewrite IH.
Qed.

Lemma variates_per_path_length (M N : nat) : forall g : G,
    length (variates_per_path M N g) = M.
Proof. induction M as [|M IH]; intro g; simpl; [reflexivity | now rewrite IH]. Qed.

Lemma variates_per_path_concat (M N : nat) : forall g : G,
    concat (variates_per_path M N g) = variates GenerateRn (M * N) g.
Proof.
  induction M as [|M IH]; intro g; simpl; [reflexivity|].
  now rewrite IH, variates_add.
Qed.

Lemma variates_per_path_nth (M N : nat) : forall (g : G) (i : nat),
    (i < M)%nat -> length (nth i (variates_per_path M N g) []) = N.
Proof.
  induction M as [|M IH]; intros g i Hi; [lia|].
  destruct i as [|i]; simpl; [apply variates_length | apply IH; lia].
Qed.

(** The inner loop, entered at the step [n] with the values up to
    [n - 1] in place: it draws a variate for each step left and writes
    the values they generate. *)
Lemma steps_spec (trips : nat) :
  forall (n : nat) (VOld : R) (m : MCMediator.t F G)
         (tr : list MCMediator.call) (pre suf : Vec.t),
    MCMediator.res m = pre ++ suf ->
    length pre = n ->
    length suf = trips ->
    (1 <= n)%nat ->
    (n + trips <= length (FdmBase.x (base (MCMediator.fdm m))))%nat ->
    MCMediator.steps trips n VOld m tr
    = Ok (MCMediator.with_res
            (MCMediator.with_rng
               m (engine_after GenerateRn trips (MCMediator.rng m)))
            (pre ++ advance_from (MCMediator.fdm m) n VOld
                      (variates GenerateRn trips (MCMediator.rng m))),
          tr ++ map MCMediator.rng_GenerateRn
                    (variates GenerateRn trips (MCMediator.rng m))).
Proof.
  induction trips as [|trips IH]; intros n VOld m tr pre suf Hres Hpre Hsuf Hn Hx.
  - destruct suf; [|discriminate]. cbn.
    rewrite !app_nil_r. rewrite app_nil_r in Hres.
    destruct m; cbn in *. now subst.
  - destruct suf as [|old suf]; [discriminate|]. injection Hsuf as Hsuf.
    cbn [MCMediator.steps].
    rewrite at_ok by lia. cbn [bind].
    destruct (GenerateRn (MCMediator.rng m)) as [z g] eqn:Hz.
    rewrite Hres. rewrite <- Hpre at 1. rewrite assign_app. cbn [bind].
    set (VNew := advance (MCMediator.fdm m) VOld _ _ z).
    rewrite (IH (S n) VNew _ _ (pre ++ [VNew]) suf).
    + cbn [variates advance_from MCMediator.rng MCMediator.fdm
           MCMediator.with_res MCMediator.with_rng engine_after map].
      rewrite Hz. cbn [fst snd]. fold VNew.
      rewrite <- !app_assoc. reflexivity.
    + cbn. now rewrite <- app_assoc.
    + rewrite length_app. simpl. lia.
    + exact Hsuf.
    + lia.
    + cbn. lia.
Qed.

End Generation.

Section Run.

Context {F G : Type} `{IFdm F} `{IRng G}.

(** The outer loop from the simulation [i] on: each simulation fills the
    buffer with the path generated from the next [N] variates and sends
    it. *)
Lemma sims_spec (N : nat) (trips : nat) :
  forall (i : nat) (m : MCMediator.t F G) (tr : list MCMediator.call),
    length (MCMediator.res m) = S N ->
    (S N <= length (FdmBase.x (base (MCMediator.fdm m))))%nat ->
    exists m',
      MCMediator.sims trips (Z.of_nat i) m tr
      = Ok (m',
            tr ++ simulations i
                    (variates_per_path trips N (MCMediator.rng m))
                    (map (generated_path (MCMediator.fdm m)
                            (ISde.InitialCondition (MCMediator.sde m)))
                         (variates_per_path trips N (MCMediator.rng m)))).
Proof.
  induction trips as [|trips IH]; intros i m tr Hres Hx.
  - exists m. cbn. now rewrite app_nil_r.
  - cbn [MCMediator.sims].
    destruct (MCMediator.res m) as [|old suf] eqn:Eres; [discriminate|].
    injection Hres as Hsuf.
    cbn [Vec.assign bind].
    set (ic := ISde.InitialCondition (MCMediator.sde m)).
    set (tr1 := if (Z.rem (Z.of_nat i) 100 =? 0)%Z then _ else _).
    cbn [MCMediator.res MCMediator.with_res length].
    replace (S (length suf) - 1)%nat with N by lia.
    rewrite (steps_spec N 1 ic _ tr1 [ic] suf);
      [ | reflexivity | reflexivity | exact Hsuf | lia | cbn; lia ].
    cbn [bind].
    set (m2 := MCMediator.with_res _ _).
    destruct (IH (S i) m2 (tr1 ++ map MCMediator.rng_GenerateRn
                                 (variates GenerateRn N (MCMediator.rng m))
                             ++ [MCMediator.path (MCMediator.res m2)]))
      as (m' & Hm').
    + unfold m2. cbn. rewrite advance_from_length, variates_length. reflexivity.
    + unfold m2. cbn. exact Hx.
    + exists m'.
      replace (Z.of_nat i + 1)%Z with (Z.of_nat (S i)) by lia.
      rewrite app_assoc in Hm'. refine (eq_trans Hm' _). f_equal. f_equal.
      cbn [variates_per_path map simulations].
      unfold m2, tr1, simulation, generated_path, ic.
      cbn [MCMediator.rng MCMediator.fdm MCMediator.sde MCMediator.res
           MCMediator.with_res MCMediator.with_rng app].
      rewrite Z.rem_mod_nonneg by lia.
      destruct (Z.of_nat i mod 100 =? 0)%Z; rewrite <- ?app_assoc; reflexivity.
Qed.

Lemma simulations_paths (zss : list (list R)) :
  forall (ps : list Vec.t) (i : nat),
    length ps = length zss ->
    length (filter is_path (simulations i zss ps)) = length zss
    /\ ~ In MCMediator.finish (simulations i zss ps).
Proof.
  induction zss as [|zs zss IH]; intros ps i Hlen.
  - split; [reflexivity | intros []].
  - destruct ps as [|p ps]; [discriminate|]. injection Hlen as Hlen.
    destruct (IH ps (S i) Hlen) as [Hcount Hfin].
    cbn [simulations]. unfold simulation.
    rewrite !filter_app, !length_app, Hcount.
    split.
    + assert (Hz : filter is_path (map MCMediator.rng_GenerateRn zs) = []).
      { clear. induction zs; simpl; auto. }
      rewrite Hz. destruct (_ =? _)%Z; simpl; lia.
    + rewrite !in_app_iff. intros [[Hin|[Hin|Hin]]|Hin].
      * destruct (_ =? _)%Z; simpl in Hin; [destruct Hin as [|[]]|]; easy.
      * apply in_map_iff in Hin as (z & Hz & _). discriminate.
      * destruct Hin as [|[]]. discriminate.
      * now apply Hfin.
Qed.

End Run.

(** C2.  [start] generates the paths one after the other, in the order
    0, 1, ..., M - 1.  What it does is, for each path in turn: the progress
    signal (every 100 paths), the [N] calls of the generator, then the path
    signal with the path these variates generate, which starts at the
    initial condition and whose entry [n] is [advance] of the entry [n - 1],
    the time point [n - 1], the step [k] and the variate of the step; and,
    after the [M] path signals, the finish signal, once. *)
Theorem start_generates_in_order {F G : Type} `{IFdm F} `{IRng G}
        (sde : ISde.t) (fdm : F) (rng : G) (NSim : Z) :
  let N := Z.to_nat (FdmBase.NT (base fdm)) in
  let x := FdmBase.x (base fdm) in
  let k := FdmBase.k (base fdm) in
  let M := Z.to_nat NSim in
  (0 <= FdmBase.NT (base fdm))%Z ->
  length x = S N ->
  exists (m m' : MCMediator.t F G) (zss : list (list R)) (ps : list Vec.t),
    MCMediator.ctor (sde, fdm, rng) NSim = Ok m
    /\ MCMediator.start m
       = Ok (m', simulations 0 zss ps ++ [MCMediator.finish])
    /\ length zss = M
    /\ length ps = M
    /\ concat zss = variates GenerateRn (M * N) rng
    /\ (forall i, (i < M)%nat ->
          let zs := nth i zss [] in
          let p := nth i ps [] in
          length zs = N
          /\ length p = S N
          /\ nth 0 p 0 = ISde.InitialCondition sde
          /\ forall n, (1 <= n <= N)%nat ->
               nth n p 0
               = advance fdm (nth (n - 1) p 0) (nth (n - 1) x 0) k
                         (nth (n - 1) zs 0))
    /\ length (filter is_path (simulations 0 zss ps)) = M
    /\ ~ In MCMediator.finish (simulations 0 zss ps).
Proof.
  intros N x k M HNT Hx.
  set (m := {| MCMediator.sde := sde; MCMediator.fdm := fdm;
               MCMediator.rng := rng; MCMediator.NSim := NSim;
               MCMediator.res := repeat 0 (S N) |}).
  assert (Hctor : MCMediator.ctor (sde, fdm, rng) NSim = Ok m).
  { unfold MCMediator.ctor, Vec.resize.
    destruct (Z.ltb_spec (FdmBase.NT (base fdm) + 1) 0) as [|_]; [lia|].
    cbn [bind]. unfold m, N. do 3 f_equal. lia. }
  destruct (sims_spec N M 0 m []) as (m' & Hsims).
  { apply repeat_length. }
  { cbn. fold x. lia. }
  set (zss := variates_per_path M N rng).
  set (ps := map (generated_path fdm (ISde.InitialCondition sde)) zss).
  assert (Hzss : length zss = M) by apply variates_per_path_length.
  assert (Hps : length ps = M) by (unfold ps; now rewrite length_map).
  exists m, m', zss, ps.
  split; [exact Hctor|].
  split.
  { unfold MCMediator.start. cbn [MCMediator.NSim m]. fold M.
    change (Z.of_nat 0) with 0%Z in Hsims. rewrite Hsims. reflexivity. }
  split; [exact Hzss|]. split; [exact Hps|].
  split; [apply variates_per_path_concat|].
  split.
  { intros i Hi zs p.
    assert (Hzs : length zs = N) by (now apply variates_per_path_nth).
    assert (Hp : p = generated_path fdm (ISde.InitialCondition sde) zs).
    { unfold p, ps.
      rewrite (nth_indep _ [] (generated_path fdm (ISde.InitialCondition sde) []))
        by (rewrite length_map; lia).
      apply map_nth. }
    rewrite Hp. unfold generated_path.
    split; [exact Hzs|].
    split; [simpl; now rewrite advance_from_length, Hzs|].
    split; [reflexivity|].
    intros n Hn. destruct n as [|n]; [lia|].
    replace (S n - 1)%nat with n by lia.
    change (nth (S n) (?a :: ?l) 0) with (nth n l 0).
    rewrite advance_from_nth by lia.
    replace (1 + n - 1)%nat with n by lia. reflexivity. }
  rewrite <- Hzss at 1.
  apply simulations_paths. lia.
Qed.

Lemma start_generates_in_order_witness :
  exists (m m' : MCMediator.t EulerFdm.t nat) (zss : list (list R))
         (ps : list Vec.t),
    MCMediator.ctor
      (GBM.as_ISde (testGBM 65),
       {| EulerFdm.fdmBase :=
            {| FdmBase.sde := GBM.as_ISde (testGBM 65);
               FdmBase.dtSqrt := sqrt (0.25 / 2);
               FdmBase.NT := 2;
               FdmBase.x := grid 2 (0.25 / 2);
               FdmBase.k := 0.25 / 2 |} |},
       0%nat) 3 = Ok m
    /\ @MCMediator.start _ _ _ (tape_rng (fun _ => 0)) m
       = Ok (m', simulations 0 zss ps ++ [MCMediator.finish])
    /\ length ps = 3%nat.
Proof.
  destruct (@start_generates_in_order _ _ _ (tape_rng (fun _ => 0))
              (GBM.as_ISde (testGBM 65))
              {| EulerFdm.fdmBase :=
                   {| FdmBase.sde := GBM.as_ISde (testGBM 65);
                      FdmBase.dtSqrt := sqrt (0.25 / 2);
                      FdmBase.NT := 2;
                      FdmBase.x := grid 2 (0.25 / 2);
                      FdmBase.k := 0.25 / 2 |} |}
              0%nat 3)
    as (m & m' & zss & ps & Hctor & Hstart & _ & Hps & _).
  - simpl. lia.
  - reflexivity.
  - exists m, m', zss, ps. repeat split; assumption.
Defined.

(** ** The grid after construction *)

Section Frame.

Context {F G : Type} `{IFdm F} `{IRng G}.

(** The loops of the mediator write its buffer and move its generator,
    and nothing else. *)
Lemma steps_frame (trips : nat) :
  forall (n : nat) (VOld : R) (m m' : MCMediator.t F G)
         (tr tr' : list MCMediator.call),
    MCMediator.steps trips n VOld m tr = Ok (m', tr') ->
    MCMediator.fdm m' = MCMediator.fdm m
    /\ MCMediator.sde m' = MCMediator.sde m
    /\ MCMediator.NSim m' = MCMediator.NSim m.
Proof.
  induction trips as [|trips IH]; intros n VOld m m' tr tr' Hrun.
  - injection Hrun as <- _. now repeat split.
  - cbn [MCMediator.steps] in Hrun. inv_ok Hrun.
    destruct (GenerateRn (MCMediator.rng m)) as [z g].
    cbv zeta in Hrun. inv_ok Hrun.
    apply IH in Hrun. exact Hrun.
Qed.

Lemma sims_frame (trips : nat) :
  forall (i : Z) (m m' : MCMediator.t F G) (tr tr' : list MCMediator.call),
    MCMediator.sims trips i m tr = Ok (m', tr') ->
    MCMediator.fdm m' = MCMediator.fdm m
    /\ MCMediator.sde m' = MCMediator.sde m
    /\ MCMediator.NSim m' = MCMediator.NSim m.
Proof.
  induction trips as [|trips IH]; intros i m m' tr tr' Hrun.
  - injection Hrun as <- _. now repeat split.
  - cbn [MCMediator.sims] in Hrun. cbv zeta in Hrun. inv_ok Hrun.
    destruct a0 as [m1 tr1].
    apply steps_frame in Ha0 as (Hf & Hs & Hn).
    apply IH in Hrun as (Hf' & Hs' & Hn').
    rewrite Hf', Hs', Hn', Hf, Hs, Hn. now repeat split.
Qed.

End Frame.

(** ** The time grid in binary64 *)












(** * Further properties of the pricers *)

(** ** Finalizing twice *)

(** X1.  [PostProcess] reads the sum, the count and the discounter and writes
    the price only: a second call finds what the first one found. *)
Theorem PostProcess_idempotent :
  (forall p p' : EuropeanPricer.t,
      PostProcess p = Ok p' -> PostProcess p' = Ok p')
  /\ (forall p p' : AsianPricer.t,
        PostProcess p = Ok p' -> PostProcess p' = Ok p')
  /\ (forall p p' : BarrierPricer.t,
        PostProcess p = Ok p' -> PostProcess p' = Ok p')
  /\ (forall (E : Type) (p p' : BrownianBridgePricer.t E),
        BrownianBridgePricer.PostProcess p = Ok p' ->
        BrownianBridgePricer.PostProcess p' = Ok p').
Proof.
  repeat split.
  - intros p p'. cbn [PostProcess EuropeanPricer_IPricer].
    unfold EuropeanPricer.PostProcess. intro Hp. inv_ok Hp. subst p'.
    cbn [EuropeanPricer.DiscountFactor EuropeanPricer.m_discounter
         EuropeanPricer.sum EuropeanPricer.NSim] in *.
    unfold EuropeanPricer.DiscountFactor in *. now rewrite Ha.
  - intros p p'. cbn [PostProcess AsianPricer_IPricer].
    unfold AsianPricer.PostProcess. intro Hp. inv_ok Hp. subst p'.
    unfold AsianPricer.DiscountFactor in *.
    cbn [AsianPricer.m_discounter AsianPricer.sum AsianPricer.NSim].
    now rewrite Ha.
  - intros p p'. cbn [PostProcess BarrierPricer_IPricer].
    unfold BarrierPricer.PostProcess. intro Hp. inv_ok Hp. subst p'.
    unfold BarrierPricer.DiscountFactor in *.
    cbn [BarrierPricer.m_discounter BarrierPricer.sum BarrierPricer.NSim].
    now rewrite Ha.
  - intros E p p'.
    unfold BrownianBridgePricer.PostProcess. intro Hp. inv_ok Hp. subst p'.
    unfold BrownianBridgePricer.DiscountFactor in *.
    cbn [BrownianBridgePricer.m_discounter BrownianBridgePricer.sum
         BrownianBridgePricer.NSim].
    now rewrite Ha.
Qed.

Lemma European_PostProcess_ok (p : EuropeanPricer.t) :
  EuropeanPricer.NSim p <> 0%Z ->
  exists p', EuropeanPricer.PostProcess p = Ok p'.
Proof.
  intro HN. unfold EuropeanPricer.PostProcess.
  rewrite fdiv_ok by (now apply not_0_IZR). cbn [bind]. eauto.
Qed.

Lemma PostProcess_idempotent_witness :
  exists p : EuropeanPricer.t,
    process_all (EuropeanPricer.ctor (OptionData.getPayOff testOption)
                                     (OptionData.getDiscounter testOption))
                [[65; 70]] = Ok p
    /\ exists p', PostProcess p = Ok p' /\ PostProcess p' = Ok p'.
Proof.
  eexists. split; [reflexivity|].
  match goal with
  | |- exists p', PostProcess ?p = _ /\ _ =>
      destruct (European_PostProcess_ok p) as [p' Hp']; [discriminate|]
  end.
  exists p'. split; [exact Hp'|].
  exact (proj1 PostProcess_idempotent _ _ Hp').
Defined.

(** ** The price as a discounted mean *)

Lemma Rsum_app (l l' : list R) : Rsum (l ++ l') = Rsum l + Rsum l'.
Proof. induction l as [|x l IH]; simpl; [lra | rewrite IH; lra]. Qed.

Lemma Rsum_Permutation (l l' : list R) : Permutation l l' -> Rsum l = Rsum l'.
Proof. induction 1; simpl; lra. Qed.

Lemma Exists_empty_Permutation (paths paths' : list Vec.t) :
  Permutation paths paths' ->
  Exists (fun path => path = []) paths -> Exists (fun path => path = []) paths'.
Proof.
  intros Hperm Hex. apply Exists_exists in Hex as (path & Hin & ->).
  apply Exists_exists. exists []. split; [|reflexivity].
  now apply (Permutation_in _ Hperm).
Qed.

Lemma Exists_empty_dec (paths : list Vec.t) :
  Exists (fun path => path = []) paths \/ Forall (fun path => path <> []) paths.
Proof.
  induction paths as [|path rest [IH|IH]].
  - right. constructor.
  - left. now apply Exists_cons_tl.
  - destruct path as [|x path].
    + left. now constructor.
    + right. constructor; [discriminate | exact IH].
Qed.

(** A pricer that adds one contribution per path to its sum, counts the
    path, fails in one way on the empty path, and divides the discounted sum
    by the count when it finalizes. *)
Section Estimator.

Context {P : Type} `{IPricer P}.
Variables (sum : P -> R) (NSim : P -> Z) (contribution : P -> Vec.t -> R).
Variable on_empty : error.

Hypothesis step :
  forall p path, path <> [] ->
    exists p', ProcessPath p path = Ok p'
               /\ sum p' = sum p + contribution p path
               /\ NSim p' = (NSim p + 1)%Z
               /\ (forall q, contribution p' q = contribution p q)
               /\ DiscountFactor p' = DiscountFactor p.
Hypothesis step_empty : forall p, ProcessPath p [] = Err on_empty.
Hypothesis finalize :
  forall p,
    (NSim p = 0%Z -> PostProcess p = Err DivisionByZero)
    /\ (NSim p <> 0%Z ->
        exists p', PostProcess p = Ok p'
                   /\ Price p' = DiscountFactor p * sum p / IZR (NSim p)).

Lemma run_ok (paths : list Vec.t) :
  forall p, Forall (fun path => path <> []) paths ->
    exists p', process_all p paths = Ok p'
               /\ sum p' = sum p + Rsum (map (contribution p) paths)
               /\ NSim p' = (NSim p + Z.of_nat (length paths))%Z
               /\ DiscountFactor p' = DiscountFactor p.
Proof using step.
  induction paths as [|path rest IH]; intros p HF.
  - exists p. simpl. repeat split; [lra | lia].
  - inversion HF as [|? ? Hne HF']; subst.
    destruct (step p path Hne) as (p1 & Hp1 & Hs1 & Hn1 & Hc1 & Hd1).
    destruct (IH p1 HF') as (p' & Hp' & Hs & Hn & Hd).
    exists p'. cbn [process_all]. rewrite Hp1. cbn [bind].
    split; [exact Hp'|]. split; [|split; [|congruence]].
    + rewrite Hs, Hs1. cbn [map Rsum fold_right].
      rewrite (map_ext _ _ Hc1). fold (Rsum (map (contribution p) rest)). lra.
    + rewrite Hn, Hn1. cbn [length]. lia.
Qed.

Lemma run_empty (paths : list Vec.t) :
  forall p, Exists (fun path => path = []) paths ->
    process_all p paths = Err on_empty.
Proof using step step_empty.
  induction paths as [|path rest IH]; intros p Hex.
  - inversion Hex.
  - cbn [process_all]. destruct path as [|x path].
    + now rewrite step_empty.
    + destruct (step p (x :: path)) as (p1 & Hp1 & _); [discriminate|].
      rewrite Hp1. cbn [bind]. apply IH.
      inversion Hex; [discriminate | assumption].
Qed.

(** The finalized price of a pricer that starts from an empty sum. *)
Lemma estimator (init : P) (paths : list Vec.t) :
  sum init = 0 -> NSim init = 0%Z ->
  (Exists (fun path => path = []) paths ->
   finalized_price init paths = Err on_empty)
  /\ (paths = [] -> finalized_price init paths = Err DivisionByZero)
  /\ (paths <> [] -> Forall (fun path => path <> []) paths ->
      finalized_price init paths
      = Ok (DiscountFactor init * Rsum (map (contribution init) paths)
            / INR (length paths))).
Proof using step step_empty finalize.
  intros Hs0 Hn0. unfold finalized_price. split; [|split].
  - intro Hex. now rewrite run_empty.
  - intros ->. cbn [process_all bind].
    now rewrite (proj1 (finalize init) Hn0).
  - intros Hne HF.
    destruct (run_ok paths init HF) as (p & Hp & Hs & Hn & Hd).
    rewrite Hp. cbn [bind].
    destruct (proj2 (finalize p)) as (p' & Hp' & Hprice).
    { rewrite Hn, Hn0. destruct paths; [congruence | simpl; lia]. }
    rewrite Hp'. cbn [bind]. f_equal.
    rewrite Hprice, Hd, Hs, Hs0, Hn, Hn0, INR_IZR_INZ. f_equal. lra.
Qed.

(** The order of the paths does not matter. *)
Lemma estimator_Permutation (init : P) (paths paths' : list Vec.t) :
  sum init = 0 -> NSim init = 0%Z ->
  Permutation paths paths' ->
  finalized_price init paths = finalized_price init paths'.
Proof using step step_empty finalize.
  intros Hs0 Hn0 Hperm.
  destruct (estimator init paths Hs0 Hn0) as (He & Hnil & Hok).
  destruct (estimator init paths' Hs0 Hn0) as (He' & Hnil' & Hok').
  destruct (Exists_empty_dec paths) as [Hex|HF].
  - rewrite (He Hex), (He' (Exists_empty_Permutation _ _ Hperm Hex)).
    reflexivity.
  - destruct paths as [|path rest].
    + apply Permutation_nil in Hperm. subst. reflexivity.
    + assert (Hne' : paths' <> []).
      { intros ->. apply Permutation_sym, Permutation_nil in Hperm.
        discriminate. }
      assert (HF' : Forall (fun path => path <> []) paths').
      { rewrite Forall_forall in *. intros q Hq. apply HF.
        now apply (Permutation_in _ (Permutation_sym Hperm)). }
      rewrite (Hok ltac:(discriminate) HF), (Hok' Hne' HF').
      f_equal. rewrite (Permutation_length Hperm). f_equal. f_equal.
      apply Rsum_Permutation. now apply Permutation_map.
Qed.

End Estimator.

Lemma accumulate_Rsum (v : Vec.t) : Vec.accumulate v = Rsum v.
Proof.
  unfold Vec.accumulate.
  assert (Hgen : forall a, fold_left Rplus v a = a + Rsum v).
  { induction v as [|x v IH]; intro a; simpl; [lra | rewrite IH; lra]. }
  rewrite Hgen. lra.
Qed.

Lemma nonempty_length_neq_0 (v : Vec.t) : v <> [] -> INR (length v) <> 0.
Proof.
  intro Hne. apply not_0_INR. destruct v; [congruence | discriminate].
Qed.

Lemma European_step (p : EuropeanPricer.t) (path : Vec.t) :
  path <> [] ->
  exists p', ProcessPath p path = Ok p'
             /\ EuropeanPricer.sum p'
                = EuropeanPricer.sum p + EuropeanPricer.m_payoff p (last path 0)
             /\ EuropeanPricer.NSim p' = (EuropeanPricer.NSim p + 1)%Z
             /\ (forall q, EuropeanPricer.m_payoff p' (last q 0)
                           = EuropeanPricer.m_payoff p (last q 0))
             /\ DiscountFactor p' = DiscountFactor p.
Proof.
  intro Hne. cbn [ProcessPath EuropeanPricer_IPricer].
  rewrite European_ProcessPath_ok by exact Hne.
  eexists. split; [reflexivity|]. now repeat split.
Qed.

Lemma European_finalize (p : EuropeanPricer.t) :
  (EuropeanPricer.NSim p = 0%Z -> PostProcess p = Err DivisionByZero)
  /\ (EuropeanPricer.NSim p <> 0%Z ->
      exists p', PostProcess p = Ok p'
                 /\ Price p' = DiscountFactor p * EuropeanPricer.sum p
                               / IZR (EuropeanPricer.NSim p)).
Proof.
  cbn [PostProcess EuropeanPricer_IPricer]. unfold EuropeanPricer.PostProcess.
  split; intro HN.
  - rewrite HN. now rewrite fdiv_zero.
  - rewrite fdiv_ok by (now apply not_0_IZR). cbn [bind].
    eexists. split; reflexivity.
Qed.

Lemma Asian_step (p : AsianPricer.t) (path : Vec.t) :
  path <> [] ->
  exists p', ProcessPath p path = Ok p'
             /\ AsianPricer.sum p'
                = AsianPricer.sum p
                  + AsianPricer.m_payoff p (Rsum path / INR (length path))
             /\ AsianPricer.NSim p' = (AsianPricer.NSim p + 1)%Z
             /\ (forall q, AsianPricer.m_payoff p' (Rsum q / INR (length q))
                           = AsianPricer.m_payoff p (Rsum q / INR (length q)))
             /\ DiscountFactor p' = DiscountFactor p.
Proof.
  intro Hne. cbn [ProcessPath AsianPricer_IPricer].
  unfold AsianPricer.ProcessPath, AsianPricer.Average.
  rewrite fdiv_ok by (now apply nonempty_length_neq_0). cbn [bind].
  eexists. split; [reflexivity|]. cbn. rewrite accumulate_Rsum. now repeat split.
Qed.

Lemma Asian_step_empty (p : AsianPricer.t) :
  ProcessPath p [] = Err DivisionByZero.
Proof.
  cbn [ProcessPath AsianPricer_IPricer].
  unfold AsianPricer.ProcessPath, AsianPricer.Average.
  cbn [length INR]. now rewrite fdiv_zero.
Qed.

Lemma Asian_finalize (p : AsianPricer.t) :
  (AsianPricer.NSim p = 0%Z -> PostProcess p = Err DivisionByZero)
  /\ (AsianPricer.NSim p <> 0%Z ->
      exists p', PostProcess p = Ok p'
                 /\ Price p' = DiscountFactor p * AsianPricer.sum p
                               / IZR (AsianPricer.NSim p)).
Proof.
  cbn [PostProcess AsianPricer_IPricer]. unfold AsianPricer.PostProcess.
  split; intro HN.
  - rewrite HN. now rewrite fdiv_zero.
  - rewrite fdiv_ok by (now apply not_0_IZR). cbn [bind].
    eexists. split; reflexivity.
Qed.

Lemma Barrier_step (p : BarrierPricer.t) (path : Vec.t) :
  path <> [] ->
  exists p', ProcessPath p path = Ok p'
             /\ BarrierPricer.sum p'
                = BarrierPricer.sum p
                  + (if BarrierPricer.knocked 170 path
                     then 0 else BarrierPricer.m_payoff p (last path 0))
             /\ BarrierPricer.NSim p' = (BarrierPricer.NSim p + 1)%Z
             /\ (forall q, (if BarrierPricer.knocked 170 q
                            then 0 else BarrierPricer.m_payoff p' (last q 0))
                           = (if BarrierPricer.knocked 170 q
                              then 0 else BarrierPricer.m_payoff p (last q 0)))
             /\ DiscountFactor p' = DiscountFactor p.
Proof.
  intro Hne. cbn [ProcessPath BarrierPricer_IPricer].
  rewrite Barrier_ProcessPath_ok by exact Hne.
  eexists. split; [reflexivity|]. cbn -[last].
  replace 170.0 with 170 by lra.
  repeat split. destruct (BarrierPricer.knocked 170 path); cbn [negb]; lra.
Qed.

Lemma Barrier_finalize (p : BarrierPricer.t) :
  (BarrierPricer.NSim p = 0%Z -> PostProcess p = Err DivisionByZero)
  /\ (BarrierPricer.NSim p <> 0%Z ->
      exists p', PostProcess p = Ok p'
                 /\ Price p' = DiscountFactor p * BarrierPricer.sum p
                               / IZR (BarrierPricer.NSim p)).
Proof.
  cbn [PostProcess BarrierPricer_IPricer]. unfold BarrierPricer.PostProcess.
  split; intro HN.
  - rewrite HN. now rewrite fdiv_zero.
  - rewrite fdiv_ok by (now apply not_0_IZR). cbn [bind].
    eexists. split; reflexivity.
Qed.

(** X2.  The Vanilla price is the discounted mean of the payoffs of the paths'
    last values.  A run without a path divides by zero, and a run with an
    empty path reads outside it. *)
Theorem Vanilla_price_is_discounted_mean (payoff : R -> R)
        (discounter : unit -> R) (paths : list Vec.t) :
  (Exists (fun path => path = []) paths ->
   finalized_price (EuropeanPricer.ctor payoff discounter) paths
   = Err OutOfBounds)
  /\ (paths = [] ->
      finalized_price (EuropeanPricer.ctor payoff discounter) paths
      = Err DivisionByZero)
  /\ (paths <> [] -> Forall (fun path => path <> []) paths ->
      finalized_price (EuropeanPricer.ctor payoff discounter) paths
      = Ok (discounter tt * Rsum (map (fun path => payoff (last path 0)) paths)
            / INR (length paths))).
Proof.
  assert (Hsum : EuropeanPricer.sum (EuropeanPricer.ctor payoff discounter) = 0)
    by (cbn; lra).
  exact (estimator EuropeanPricer.sum EuropeanPricer.NSim
           (fun p path => EuropeanPricer.m_payoff p (last path 0)) OutOfBounds
           European_step (fun p => eq_refl) European_finalize
           (EuropeanPricer.ctor payoff discounter) paths Hsum eq_refl).
Qed.

Lemma Vanilla_price_is_discounted_mean_witness :
  finalized_price (EuropeanPricer.ctor (fun S => Rmax (S - 65) 0) (fun _ => 1))
                  [[65; 70]; [65; 60]]
  = Ok (1 * Rsum (map (fun path => Rmax (last path 0 - 65) 0)
                      [[65; 70]; [65; 60]])
        / INR 2).
Proof.
  apply (Vanilla_price_is_discounted_mean
           (fun S => Rmax (S - 65) 0) (fun _ => 1) [[65; 70]; [65; 60]]).
  - discriminate.
  - repeat constructor; discriminate.
Defined.

(** X3.  The Asian price is the discounted mean of the payoffs of the paths'
    arithmetic means.  A run without a path and a run with an empty path
    both divide by zero. *)
Theorem Asian_price_is_discounted_mean (payoff : R -> R)
        (discounter : unit -> R) (paths : list Vec.t) :
  (paths = [] \/ Exists (fun path => path = []) paths ->
   finalized_price (AsianPricer.ctor payoff discounter) paths
   = Err DivisionByZero)
  /\ (paths <> [] -> Forall (fun path => path <> []) paths ->
      finalized_price (AsianPricer.ctor payoff discounter) paths
      = Ok (discounter tt
            * Rsum (map (fun path => payoff (Rsum path / INR (length path)))
                        paths)
            / INR (length paths))).
Proof.
  destruct (estimator AsianPricer.sum AsianPricer.NSim
              (fun p path => AsianPricer.m_payoff p
                               (Rsum path / INR (length path)))
              DivisionByZero Asian_step Asian_step_empty Asian_finalize
              (AsianPricer.ctor payoff discounter) paths)
    as (Hex & Hnil & Hok).
  - cbn. lra.
  - reflexivity.
  - split; [intros [Hn|He]; auto | exact Hok].
Qed.

Lemma Asian_price_is_discounted_mean_witness :
  finalized_price (AsianPricer.ctor (fun S => Rmax (S - 65) 0) (fun _ => 1))
                  [[65; 70]; [65; 60]]
  = Ok (1 * Rsum (map (fun path => Rmax (Rsum path / INR (length path) - 65) 0)
                      [[65; 70]; [65; 60]])
        / INR 2).
Proof.
  apply (Asian_price_is_discounted_mean
           (fun S => Rmax (S - 65) 0) (fun _ => 1) [[65; 70]; [65; 60]]).
  - discriminate.
  - repeat constructor; discriminate.
Defined.

(** X4.  The Vanilla, Asian and Barrier prices do not depend on the order in
    which the paths arrive: their sums are plain sums of one contribution
    per path.  (In the model's exact arithmetic.) *)
Theorem price_order_independent (payoff : R -> R) (discounter : unit -> R)
        (paths paths' : list Vec.t) :
  Permutation paths paths' ->
  finalized_price (EuropeanPricer.ctor payoff discounter) paths
  = finalized_price (EuropeanPricer.ctor payoff discounter) paths'
  /\ finalized_price (AsianPricer.ctor payoff discounter) paths
     = finalized_price (AsianPricer.ctor payoff discounter) paths'
  /\ finalized_price (BarrierPricer.ctor payoff discounter) paths
     = finalized_price (BarrierPricer.ctor payoff discounter) paths'.
Proof.
  intro Hperm. split; [|split].
  - apply (estimator_Permutation EuropeanPricer.sum EuropeanPricer.NSim
             (fun p path => EuropeanPricer.m_payoff p (last path 0)) OutOfBounds);
      [exact European_step | reflexivity | exact European_finalize
      | cbn; lra | reflexivity | exact Hperm].
  - apply (estimator_Permutation AsianPricer.sum AsianPricer.NSim
             (fun p path => AsianPricer.m_payoff p
                              (Rsum path / INR (length path)))
             DivisionByZero);
      [exact Asian_step | exact Asian_step_empty | exact Asian_finalize
      | cbn; lra | reflexivity | exact Hperm].
  - apply (estimator_Permutation BarrierPricer.sum BarrierPricer.NSim
             (fun p path => if BarrierPricer.knocked 170 path
                            then 0 else BarrierPricer.m_payoff p (last path 0))
             OutOfBounds);
      [exact Barrier_step | reflexivity | exact Barrier_finalize
      | cbn; lra | reflexivity | exact Hperm].
Qed.

Lemma price_order_independent_witness :
  finalized_price (EuropeanPricer.ctor (fun S => Rmax (S - 65) 0) (fun _ => 1))
                  [[65; 70]; [65; 60]]
  = finalized_price (EuropeanPricer.ctor (fun S => Rmax (S - 65) 0) (fun _ => 1))
                    [[65; 60]; [65; 70]].
Proof.
  apply (price_order_independent (fun S => Rmax (S - 65) 0) (fun _ => 1)
           [[65; 70]; [65; 60]] [[65; 60]; [65; 70]]).
  apply perm_swap.
Defined.

(** ** The barrier that is never reached *)

Lemma knocked_true_nth (L : R) (path : Vec.t) :
  BarrierPricer.knocked L path = true ->
  exists i, (i < length path)%nat /\ nth i path 0 >= L.
Proof.
  induction path as [|x path IH]; simpl; [discriminate|].
  destruct (Rgeb x L) eqn:Hx.
  - intros _. exists 0%nat. split; [lia | now apply Rgeb_true].
  - intro Hk. destruct (IH Hk) as (i & Hi & Hge).
    exists (S i). split; [lia | exact Hge].
Qed.

Lemma knocked_false_below (L : R) (path : Vec.t) :
  Forall (fun x => x < L) path -> BarrierPricer.knocked L path = false.
Proof.
  induction 1 as [|x path Hx _ IH]; simpl; [reflexivity|].
  now rewrite (proj2 (Rgeb_false x L) Hx).
Qed.

(** X5.  While every value of every path stays below the barrier 170, the
    Barrier pricer is the Vanilla pricer: same price, and the same failure
    on a run that has no price. *)
Theorem Barrier_is_Vanilla_below_barrier (payoff : R -> R)
        (discounter : unit -> R) (paths : list Vec.t) :
  Forall (Forall (fun x => x < 170)) paths ->
  finalized_price (BarrierPricer.ctor payoff discounter) paths
  = finalized_price (EuropeanPricer.ctor payoff discounter) paths.
Proof.
  intro Hbelow.
  assert (HsB : BarrierPricer.sum (BarrierPricer.ctor payoff discounter) = 0)
    by (cbn; lra).
  assert (HsV : EuropeanPricer.sum (EuropeanPricer.ctor payoff discounter) = 0)
    by (cbn; lra).
  destruct (estimator BarrierPricer.sum BarrierPricer.NSim
              (fun p path => if BarrierPricer.knocked 170 path
                             then 0 else BarrierPricer.m_payoff p (last path 0))
              OutOfBounds Barrier_step (fun p => eq_refl) Barrier_finalize
              (BarrierPricer.ctor payoff discounter) paths HsB eq_refl)
    as (HeB & HnB & HokB).
  destruct (estimator EuropeanPricer.sum EuropeanPricer.NSim
              (fun p path => EuropeanPricer.m_payoff p (last path 0))
              OutOfBounds European_step (fun p => eq_refl) European_finalize
              (EuropeanPricer.ctor payoff discounter) paths HsV eq_refl)
    as (HeV & HnV & HokV).
  destruct (Exists_empty_dec paths) as [Hex|HF].
  - now rewrite HeB, HeV.
  - destruct paths as [|path rest].
    + now rewrite HnB, HnV.
    + rewrite (HokB ltac:(discriminate) HF), (HokV ltac:(discriminate) HF).
      cbn [DiscountFactor BarrierPricer_IPricer EuropeanPricer_IPricer].
      unfold BarrierPricer.DiscountFactor, EuropeanPricer.DiscountFactor.
      cbn [BarrierPricer.ctor BarrierPricer.m_discounter BarrierPricer.m_payoff
           EuropeanPricer.ctor EuropeanPricer.m_discounter
           EuropeanPricer.m_payoff].
      do 3 f_equal. unfold Rsum. f_equal. apply map_ext_in. intros q Hq.
      rewrite Forall_forall in Hbelow.
      now rewrite (knocked_false_below 170 q (Hbelow q Hq)).
Qed.

Lemma Barrier_is_Vanilla_below_barrier_witness :
  finalized_price (BarrierPricer.ctor (OptionData.getPayOff testOption)
                                      (OptionData.getDiscounter testOption))
                  [[65; 70]; [65; 60]]
  = finalized_price (EuropeanPricer.ctor (OptionData.getPayOff testOption)
                                         (OptionData.getDiscounter testOption))
                    [[65; 70]; [65; 60]].
Proof.
  apply Barrier_is_Vanilla_below_barrier.
  repeat constructor; lra.
Defined.

(** ** The bridge correction against discrete monitoring *)

Section BridgeAgainstBarrier.

Context {E : Type} (dist : E -> R * E).

(** One path through the bridge pricer: what is added to the sum. *)
Lemma Bridge_step (p : BrownianBridgePricer.t E) (path : Vec.t) :
  path <> [] ->
  (forall n, (1 <= n < length path)%nat ->
     bridge_divisor (BrownianBridgePricer.sde p) (BrownianBridgePricer.dt p)
                    path n <> 0) ->
  exists p',
    BrownianBridgePricer.ProcessPath dist p path = Ok p'
    /\ BrownianBridgePricer.m_payoff p' = BrownianBridgePricer.m_payoff p
    /\ BrownianBridgePricer.m_discounter p' = BrownianBridgePricer.m_discounter p
    /\ BrownianBridgePricer.NSim p' = (BrownianBridgePricer.NSim p + 1)%Z
    /\ BrownianBridgePricer.dt p' = BrownianBridgePricer.dt p
    /\ BrownianBridgePricer.sde p' = BrownianBridgePricer.sde p
    /\ (((exists m, (1 <= m < length path)%nat
            /\ bridge_hit dist (BrownianBridgePricer.rng p) 170
                          (BrownianBridgePricer.sde p)
                          (BrownianBridgePricer.dt p) path m)
         /\ BrownianBridgePricer.sum p' = BrownianBridgePricer.sum p)
        \/ ((forall j, (1 <= j < length path)%nat ->
               ~ bridge_hit dist (BrownianBridgePricer.rng p) 170
                            (BrownianBridgePricer.sde p)
                            (BrownianBridgePricer.dt p) path j)
            /\ BrownianBridgePricer.sum p'
               = BrownianBridgePricer.sum p
                 + BrownianBridgePricer.m_payoff p (last path 0))).
Proof.
  intros Hne Hdiv.
  destruct (scan_spec dist 170.0 path (BrownianBridgePricer.rng p)
              (length path - 1) 1 p)
    as (crossed & q & Hscan & Hcases);
    [lia | destruct path; [congruence | simpl; lia] | reflexivity
    | intros j Hj; now apply Hdiv |].
  unfold BrownianBridgePricer.ProcessPath. rewrite Hscan. cbn [bind].
  apply scan_frame in Hscan as (Hpay & Hdisc & _ & Hsum & HNSim & Hdt & Hsde).
  replace 170.0 with 170 in Hcases by lra.
  destruct Hcases as [(-> & m & Hm & Hhit & _)|(-> & Hnone & _)]; cbn [bind].
  - eexists. split; [reflexivity|]. cbn.
    rewrite Hpay, Hdisc, HNSim, Hdt, Hsde, Hsum.
    do 5 (split; [reflexivity|]). left. split; [eauto | lra].
  - rewrite back_ok by exact Hne. cbn [bind].
    eexists. split; [reflexivity|]. cbn -[last].
    rewrite Hpay, Hdisc, HNSim, Hdt, Hsde, Hsum.
    do 5 (split; [reflexivity|]). right. split; [exact Hnone | reflexivity].
Qed.

(** A path of at least two values that the Barrier pricer knocks out has a
    pair that the bridge pricer counts as a crossing, when the first pair's
    divisor is positive and its draw is below 1: a first value at or above
    the barrier followed by one below it gives a probability of at least 1. *)
Lemma knocked_bridge_hit (g : E) (sde : GBM.t) (dt : R) (path : Vec.t) :
  (2 <= length path)%nat ->
  0 < bridge_divisor sde dt path 1 ->
  variate dist 0 g < 1 ->
  BarrierPricer.knocked 170 path = true ->
  exists m, (1 <= m < length path)%nat /\ bridge_hit dist g 170 sde dt path m.
Proof.
  intros Hlen Hdiv Hu Hk.
  apply knocked_true_nth in Hk as (i & Hi & Hge).
  destruct i as [|i].
  - exists 1%nat. split; [lia|]. unfold bridge_hit.
    destruct (Rge_dec (nth 1 path 0) 170) as [H1|H1]; [now left | right].
    apply Rnot_ge_lt in H1.
    cbn [Nat.sub]. unfold bridge_P. cbn [Nat.sub].
    set (q := _ / _).
    assert (Hq : 0 <= q).
    { unfold q. apply Rmult_le_pos; [nra | apply Rlt_le, Rinv_0_lt_compat, Hdiv]. }
    pose proof (exp_ineq1_le q) as Hexp. clearbody q.
    apply Rle_ge. apply Rle_trans with 1; [now apply Rlt_le|].
    apply Rle_trans with (1 + q); [|exact Hexp].
    rewrite <- (Rplus_0_r 1) at 1. now apply Rplus_le_compat_l.
  - exists (S i). split; [lia | now left].
Qed.

Variables (payoff : R -> R) (discounter : unit -> R).
Variables (isde : GBM.t) (step : R).
Hypothesis payoff_nonneg : forall x, 0 <= payoff x.
Hypothesis step_pos : 0 < step.
Hypothesis vol_nonzero : GBM.vol isde <> 0.
Hypothesis dist_below_1 : forall g, fst (dist g) < 1.

Lemma bridge_divisor_pos (path : Vec.t) (n : nat) :
  Forall (fun x => x <> 0) path ->
  (1 <= n < length path)%nat ->
  0 < bridge_divisor isde step path n.
Proof using step_pos vol_nonzero.
  intros Hnz Hn. unfold bridge_divisor, GBM.Diffusion. cbv zeta.
  rewrite Forall_forall in Hnz.
  assert (Hx : nth (n - 1) path 0 <> 0) by (apply Hnz, nth_In; lia).
  assert (Hvx : GBM.vol isde * nth (n - 1) path 0 <> 0)
    by (apply Rmult_integral_contrapositive_currified; assumption).
  apply Rlt_0_sqr in Hvx. unfold Rsqr in Hvx.
  now apply Rmult_lt_0_compat.
Qed.

(** The two pricers side by side on the same paths. *)
Lemma bridge_below_barrier (paths : list Vec.t) :
  forall (p : BrownianBridgePricer.t E) (b : BarrierPricer.t),
    Forall (fun path => (2 <= length path)%nat /\ Forall (fun x => x <> 0) path)
           paths ->
    BrownianBridgePricer.m_payoff p = payoff ->
    BarrierPricer.m_payoff b = payoff ->
    BrownianBridgePricer.dt p = step ->
    BrownianBridgePricer.sde p = isde ->
    BrownianBridgePricer.sum p <= BarrierPricer.sum b ->
    exists p' b',
      @process_all _ (BrownianBridgePricer_IPricer dist) p paths = Ok p'
      /\ process_all b paths = Ok b'
      /\ BrownianBridgePricer.m_discounter p' = BrownianBridgePricer.m_discounter p
      /\ BarrierPricer.m_discounter b' = BarrierPricer.m_discounter b
      /\ BrownianBridgePricer.NSim p'
         = (BrownianBridgePricer.NSim p + Z.of_nat (length paths))%Z
      /\ BarrierPricer.NSim b' = (BarrierPricer.NSim b + Z.of_nat (length paths))%Z
      /\ BrownianBridgePricer.sum p' <= BarrierPricer.sum b'.
Proof using payoff_nonneg step_pos vol_nonzero dist_below_1.
  induction paths as [|path rest IH]; intros p b HF Hpp Hpb Hdt Hsde Hle.
  - exists p, b. cbn. repeat split; try lia. exact Hle.
  - apply Forall_cons_iff in HF as [[Hlen Hnz] HF'].
    assert (Hne : path <> [])
      by (destruct path; [simpl in Hlen; lia | discriminate]).
    destruct (Bridge_step p path Hne)
      as (p1 & Hp1 & Hpay1 & Hdisc1 & HN1 & Hdt1 & Hsde1 & Hsum1).
    { intros n Hn. rewrite Hsde, Hdt. apply Rgt_not_eq.
      now apply bridge_divisor_pos. }
    destruct (Barrier_step b path Hne) as (b1 & Hb1 & Hbsum & HbN & _ & Hbd).
    destruct (IH p1 b1 HF') as (p' & b' & Hp' & Hb' & Hd' & Hbd' & HN' & HbN' & Hle');
      try congruence.
    { cbn [ProcessPath BarrierPricer_IPricer] in Hb1.
      apply Barrier_ProcessPath_inv in Hb1 as (_ & Hm & _). congruence. }
    { rewrite Hbsum.
      pose proof (payoff_nonneg (last path 0)) as Hpos.
      destruct (BarrierPricer.knocked 170 path) eqn:Hk.
      - destruct Hsum1 as [[_ ->]|[Hnone _]]; [lra|].
        exfalso.
        destruct (knocked_bridge_hit (BrownianBridgePricer.rng p) isde step path)
          as (m & Hm & Hhit); auto.
        + apply bridge_divisor_pos; [exact Hnz | lia].
        + apply dist_below_1.
        + apply (Hnone m Hm). now rewrite Hsde, Hdt.
      - rewrite Hpb. destruct Hsum1 as [[_ ->]|[_ ->]]; rewrite ?Hpp; lra. }
    exists p', b'. cbn [process_all].
    change (@ProcessPath _ (BrownianBridgePricer_IPricer dist) p path)
      with (BrownianBridgePricer.ProcessPath dist p path).
    rewrite Hp1, Hb1. cbn [bind].
    split; [exact Hp'|]. split; [exact Hb'|].
    cbn [DiscountFactor BarrierPricer_IPricer] in Hbd.
    unfold BarrierPricer.DiscountFactor in Hbd.
    split; [congruence|]. split.
    { rewrite Hbd'. cbn [ProcessPath BarrierPricer_IPricer] in Hb1.
      now apply Barrier_ProcessPath_inv in Hb1 as (_ & _ & Hm & _). }
    cbn [length]. split; [lia|]. split; [lia | exact Hle'].
Qed.

End BridgeAgainstBarrier.

(** X6.  The bridge-corrected price is at most the discretely monitored one.
    Both pricers are fed the same non-empty sequence of paths, each of at
    least two non-zero values, with the same non-negative payoff and
    discount factor; the bridge pricer's model has a non-zero volatility,
    its step is positive and its engine draws below 1. *)
Theorem Bridge_price_le_Barrier {E : Type} (dist : E -> R * E)
        (payoff : R -> R) (discounter : unit -> R)
        (isde : GBM.t) (step : R) (seed : E) (paths : list Vec.t) :
  (forall x, 0 <= payoff x) ->
  0 <= discounter tt ->
  0 < step ->
  GBM.vol isde <> 0 ->
  (forall g, fst (dist g) < 1) ->
  paths <> [] ->
  Forall (fun path => (2 <= length path)%nat /\ Forall (fun x => x <> 0) path)
         paths ->
  exists bb b,
    @finalized_price _ (BrownianBridgePricer_IPricer dist)
      (BrownianBridgePricer.ctor payoff discounter isde step seed) paths = Ok bb
    /\ finalized_price (BarrierPricer.ctor payoff discounter) paths = Ok b
    /\ bb <= b.
Proof.
  intros Hpay Hdisc Hstep Hvol Hdist Hne HF.
  destruct (bridge_below_barrier dist payoff isde step Hpay Hstep Hvol Hdist
              paths
              (BrownianBridgePricer.ctor payoff discounter isde step seed)
              (BarrierPricer.ctor payoff discounter) HF)
    as (p' & b' & Hp' & Hb' & Hd & Hbd & HN & HbN & Hle);
    try reflexivity; try apply Rle_refl.
  unfold finalized_price. rewrite Hp', Hb'. cbn [bind].
  cbn [PostProcess BrownianBridgePricer_IPricer BarrierPricer_IPricer].
  unfold BrownianBridgePricer.PostProcess, BarrierPricer.PostProcess,
    BrownianBridgePricer.DiscountFactor, BarrierPricer.DiscountFactor.
  rewrite Hd, Hbd, HN, HbN. cbn [BrownianBridgePricer.ctor BarrierPricer.ctor
    BrownianBridgePricer.m_discounter BarrierPricer.m_discounter
    BrownianBridgePricer.NSim BarrierPricer.NSim Z.add].
  assert (Hn : (0 < Z.of_nat (length paths))%Z)
    by (destruct paths; [congruence | simpl; lia]).
  rewrite !fdiv_ok by (apply not_0_IZR; lia). cbn [bind].
  eexists. eexists. split; [reflexivity|]. split; [reflexivity|]. cbn.
  apply Rmult_le_compat_r.
  - apply Rlt_le, Rinv_0_lt_compat, IZR_lt. exact Hn.
  - now apply Rmult_le_compat_l.
Qed.

Lemma Bridge_price_le_Barrier_witness :
  exists bb b,
    @finalized_price _ (BrownianBridgePricer_IPricer testDist)
      testBridge [[65; 180]; [65; 70]] = Ok bb
    /\ finalized_price
         (BarrierPricer.ctor (OptionData.getPayOff testOption)
                             (OptionData.getDiscounter testOption))
         [[65; 180]; [65; 70]] = Ok b
    /\ bb <= b.
Proof.
  apply (Bridge_price_le_Barrier testDist (OptionData.getPayOff testOption)
           (OptionData.getDiscounter testOption) (testGBM 65) 0.0025 0%nat
           [[65; 180]; [65; 70]]).
  - intro x. unfold OptionData.getPayOff. cbn.
    eapply Rle_trans; [|apply Rmax_r]. lra.
  - unfold OptionData.getDiscounter. apply Rlt_le, exp_pos.
  - lra.
  - cbn. lra.
  - intro g. cbn. lra.
  - discriminate.
  - repeat constructor; simpl; try lia; lra.
Defined.

(** ** The Asian pricer's maximum *)

Lemma MaxValue_fold (path : Vec.t) :
  forall m0,
    let m := fold_left (fun max val => if Rgtb val max then val else max)
                       path m0 in
    (m = m0 \/ In m path) /\ m0 <= m /\ forall x, In x path -> x <= m.
Proof.
  induction path as [|y path IH]; intro m0; cbn [fold_left].
  - split; [now left|]. split; [lra | intros x []].
  - destruct (IH (if Rgtb y m0 then y else m0)) as (Hin & Hle & Hall).
    unfold Rgtb in *. destruct (Rgt_dec y m0) as [Hgt|Hngt].
    + split; [right; destruct Hin as [->|Hin]; [now left | now right]|].
      split; [lra|]. intros x [<-|Hx]; [exact Hle | now apply Hall].
    + split; [destruct Hin as [->|Hin]; [now left | right; now right]|].
      split; [exact Hle|]. intros x [<-|Hx]; [lra | now apply Hall].
Qed.

(** X7.  [MaxValue] returns a value of the path that no value of the path
    exceeds; on the empty path it reads [front()] of an empty vector. *)
Theorem MaxValue_is_maximum :
  AsianPricer.MaxValue [] = Err OutOfBounds
  /\ forall path : Vec.t,
      path <> [] ->
      exists m, AsianPricer.MaxValue path = Ok m
                /\ In m path
                /\ forall x, In x path -> x <= m.
Proof.
  split; [reflexivity|].
  intros [|x0 path] Hne; [congruence|].
  unfold AsianPricer.MaxValue. cbn [Vec.front bind].
  eexists. split; [reflexivity|].
  destruct (MaxValue_fold (x0 :: path) x0) as ([Heq|Hin] & _ & Hall).
  - split; [rewrite Heq; now left | exact Hall].
  - split; [exact Hin | exact Hall].
Qed.

Lemma MaxValue_is_maximum_witness :
  exists m, AsianPricer.MaxValue [65; 70; 68] = Ok m
            /\ In m [65; 70; 68]
            /\ forall x, In x [65; 70; 68] -> x <= m.
Proof.
  apply (proj2 MaxValue_is_maximum [65; 70; 68]). discriminate.
Defined.

(** * Further properties of the models *)

(** X11.  With the exponent 1 the elasticity-of-variance model is the lognormal
    model: on positive states all of its functions agree with those of the
    lognormal model built from the same parameters. *)
Theorem CEV_beta_1_is_GBM (mu sigma q S0 T x t B : R) :
  0 < S0 -> 0 < x ->
  let c := CEV.as_ISde (CEV.ctor mu sigma q S0 T 1) in
  let g := GBM.as_ISde (GBM.ctor mu sigma q S0 T) in
  ISde.Drift c x t = ISde.Drift g x t
  /\ ISde.Diffusion c x t = ISde.Diffusion g x t
  /\ ISde.DiffusionDerivative c x t = ISde.DiffusionDerivative g x t
  /\ ISde.DriftCorrected c x t B = ISde.DriftCorrected g x t B
  /\ ISde.InitialCondition c = ISde.InitialCondition g
  /\ ISde.Expiry c = ISde.Expiry g.
Proof.
  intros HS0 Hx c g.
  assert (Hvol : CEV.vol (CEV.ctor mu sigma q S0 T 1) = sigma).
  { cbn. replace (1.0 - 1) with 0 by lra. rewrite Rpower_O by exact HS0. lra. }
  assert (Hdiff : CEV.Diffusion (CEV.ctor mu sigma q S0 T 1) x t = sigma * x).
  { unfold CEV.Diffusion. rewrite Hvol. cbn [CEV.b CEV.ctor].
    now rewrite Rpower_1. }
  assert (Hder : CEV.DiffusionDerivative (CEV.ctor mu sigma q S0 T 1) x t = sigma).
  { unfold CEV.DiffusionDerivative. rewrite Hvol. cbn [CEV.b CEV.ctor].
    unfold Rgtb. destruct (Rgt_dec 1 1.0) as [Hgt|_]; [lra|].
    replace (1.0 - 1) with 0 by lra. rewrite Rpower_O by exact Hx. field. }
  unfold c, g. cbn [CEV.as_ISde GBM.as_ISde ISde.Drift ISde.Diffusion
                    ISde.DiffusionDerivative ISde.DriftCorrected
                    ISde.InitialCondition ISde.Expiry].
  unfold CEV.DriftCorrected, GBM.DriftCorrected. rewrite Hdiff, Hder.
  repeat split.
Qed.

Lemma CEV_beta_1_is_GBM_witness :
  ISde.Diffusion (CEV.as_ISde (CEV.ctor 0.08 0.3 0.0022 65 0.25 1)) 70 0
  = ISde.Diffusion (GBM.as_ISde (GBM.ctor 0.08 0.3 0.0022 65 0.25)) 70 0.
Proof.
  apply (CEV_beta_1_is_GBM 0.08 0.3 0.0022 65 0.25 70 0 0); lra.
Defined.

(** X12.  [DiffusionDerivative] is the derivative of [Diffusion] in the state:
    for the lognormal model everywhere, and for the elasticity-of-variance
    model at every positive state, whichever of its two formulas is taken. *)
Theorem DiffusionDerivative_is_derivative :
  (forall (s : GBM.t) (x t : R),
      derivable_pt_lim (fun y => GBM.Diffusion s y t) x
                       (GBM.DiffusionDerivative s x t))
  /\ (forall (s : CEV.t) (x t : R),
        0 < x ->
        derivable_pt_lim (fun y => CEV.Diffusion s y t) x
                         (CEV.DiffusionDerivative s x t)).
Proof.
  split.
  - intros s x t. unfold GBM.Diffusion, GBM.DiffusionDerivative.
    pose proof (derivable_pt_lim_scal (fun y => y) (GBM.vol s) x 1
                  (derivable_pt_lim_id x)) as Hd.
    unfold mult_real_fct in Hd. now rewrite Rmult_1_r in Hd.
  - intros s x t Hx. unfold CEV.Diffusion.
    assert (Hval : CEV.DiffusionDerivative s x t
                   = CEV.vol s * (CEV.b s * Rpower x (CEV.b s - 1))).
    { unfold CEV.DiffusionDerivative, Rgtb.
      destruct (Rgt_dec (CEV.b s) 1.0) as [_|_].
      - replace (CEV.b s - 1.0) with (CEV.b s - 1) by lra. ring.
      - replace (1.0 - CEV.b s) with (- (CEV.b s - 1)) by lra.
        rewrite Rpower_Ropp. unfold Rdiv. rewrite Rinv_inv. ring. }
    rewrite Hval.
    apply (derivable_pt_lim_scal (fun y => Rpower y (CEV.b s)) (CEV.vol s) x).
    now apply derivable_pt_lim_power.
Qed.

Lemma DiffusionDerivative_is_derivative_witness :
  derivable_pt_lim
    (fun y => CEV.Diffusion (CEV.ctor 0.08 0.3 0.0022 65 0.25 0.5) y 0) 70
    (CEV.DiffusionDerivative (CEV.ctor 0.08 0.3 0.0022 65 0.25 0.5) 70 0).
Proof.
  apply (proj2 DiffusionDerivative_is_derivative). lra.
Defined.

(** ** The option's payoff and discounter *)

(** X13.  The payoff is never negative, its two implementations agree, and the
    call and the put on the same strike differ by [S - K]; every type
    other than 1 is a put. *)
Theorem payoff_properties (o : OptionData.t) (S : R) :
  0 <= OptionData.getPayOff o S
  /\ OptionData.myPayOffFunction o S = OptionData.getPayOff o S
  /\ (forall T r sig D (PC : Z),
        PC <> 1%Z ->
        OptionData.getPayOff (OptionData.ctor (OptionData.K o) T r sig D 1) S
        - OptionData.getPayOff (OptionData.ctor (OptionData.K o) T r sig D PC) S
        = S - OptionData.K o).
Proof.
  split; [|split].
  - unfold OptionData.getPayOff.
    destruct (_ =? _)%Z; (eapply Rle_trans; [|apply Rmax_r]); lra.
  - reflexivity.
  - intros T r sig D PC HPC. unfold OptionData.getPayOff.
    cbn [OptionData.type OptionData.K OptionData.ctor].
    destruct (Z.eqb_spec PC 1) as [|_]; [contradiction|].
    cbn [Z.eqb Pos.eqb]. unfold Rmax.
    destruct (Rle_dec (S - OptionData.K o) 0.0);
      destruct (Rle_dec (OptionData.K o - S) 0.0); lra.
Qed.

Lemma payoff_properties_witness :
  OptionData.getPayOff (OptionData.ctor 65.0 0.25 0.08 0.3 0.0 1) 70
  - OptionData.getPayOff (OptionData.ctor 65.0 0.25 0.08 0.3 0.0 (-1)) 70
  = 70 - 65.0.
Proof.
  apply (proj2 (proj2 (payoff_properties testOption 70)) 0.25 0.08 0.3 0.0 (-1)%Z).
  discriminate.
Defined.

(** X14.  A non-negative rate over a non-negative expiry gives a discount
    factor between 0 and 1: discounting never raises a price and never
    changes its sign. *)
Theorem discount_factor_range (o : OptionData.t) :
  0 <= OptionData.r o -> 0 <= OptionData.T o ->
  0 <= OptionData.getDiscounter o tt <= 1.
Proof.
  intros Hr HT. unfold OptionData.getDiscounter.
  split; [apply Rlt_le, exp_pos|].
  rewrite <- exp_0. 
  destruct (Req_dec (- OptionData.r o * OptionData.T o) 0) as [->|Hne].
  - apply Rle_refl.
  - apply Rlt_le, exp_increasing.
    assert (0 <= OptionData.r o * OptionData.T o) by (now apply Rmult_le_pos).
    lra.
Qed.

Lemma discount_factor_range_witness :
  0 <= OptionData.getDiscounter testOption tt <= 1.
Proof.
  apply (discount_factor_range testOption); cbn; lra.
Defined.

(** ** The constructor of a scheme on a bad number of subdivisions *)

(** X15.  A scheme is built exactly when it is given at least one
    subdivision and fewer than [INT_MAX].  With [INT_MAX] of them the
    length [NT + 1] of the grid overflows; with none the step [T / 0]
    divides by zero; with -1 the grid is empty and its first point is
    written outside it; below that the grid is resized to a negative
    length. *)
Theorem FdmBase_ctor_needs_a_subdivision (sde : ISde.t) (N : Z) :
  ((1 <= N < INT_MAX)%Z ->
   exists f, FdmBase.ctor sde N = Ok f /\ FdmBase.NT f = N)
  /\ (N = INT_MAX -> FdmBase.ctor sde N = Err Overflow)
  /\ (N = 0%Z -> FdmBase.ctor sde N = Err DivisionByZero)
  /\ (N = (-1)%Z -> FdmBase.ctor sde N = Err OutOfBounds)
  /\ ((N < -1)%Z -> FdmBase.ctor sde N = Err LengthError).
Proof.
  unfold INT_MAX. split; [|split; [|split; [|split]]].
  - intro HN. rewrite FdmBase_ctor_ok by exact HN. eexists. split; reflexivity.
  - intros ->. unfold FdmBase.ctor.
    rewrite fdiv_ok by (apply not_0_IZR; lia). cbn [bind].
    now rewrite int_add_overflow by lia.
  - intros ->. unfold FdmBase.ctor. now rewrite fdiv_zero.
  - intros ->. unfold FdmBase.ctor.
    rewrite fdiv_ok by (apply not_0_IZR; lia). reflexivity.
  - intro HN. unfold FdmBase.ctor.
    rewrite fdiv_ok by (apply not_0_IZR; lia). cbn [bind].
    rewrite int_add_ok by lia. cbn [bind].
    unfold Vec.resize. destruct (Z.ltb_spec (N + 1) 0); [reflexivity | lia].
Qed.

Lemma FdmBase_ctor_needs_a_subdivision_witness :
  (exists f, FdmBase.ctor (GBM.as_ISde (testGBM 65)) 100 = Ok f
             /\ FdmBase.NT f = 100%Z)
  /\ FdmBase.ctor (GBM.as_ISde (testGBM 65)) 2147483647 = Err Overflow
  /\ FdmBase.ctor (GBM.as_ISde (testGBM 65)) (-2) = Err LengthError.
Proof.
  pose proof (FdmBase_ctor_needs_a_subdivision (GBM.as_ISde (testGBM 65)))
    as H.
  split; [|split].
  - apply (proj1 (H 100%Z)). unfold INT_MAX. lia.
  - apply (proj1 (proj2 (H 2147483647%Z))). reflexivity.
  - apply (proj2 (proj2 (proj2 (proj2 (H (-2)%Z))))). lia.
Defined.

(** * Further properties of the schemes *)

(** ** The predictor-corrector family with the weights 0 *)



(** ** The schemes on the lognormal model *)



(** X20.  The two schemes that divide by the step: with a step size 0 the fitted
    midpoint scheme divides by [dt = 0] and the derivative-free scheme by
    [sqrt dt = 0]; with a positive step size both return. *)
Theorem advance_with_step_0 (xn tn Z : R) :
  (forall f, FittedMidpointPredictorCorrectorFdm.advance f xn tn 0 Z
             = Err DivisionByZero)
  /\ (forall f, DerivativeFree.advance f xn tn 0 Z = Err DivisionByZero)
  /\ (forall dt, 0 < dt ->
        (forall f, exists v f',
            FittedMidpointPredictorCorrectorFdm.advance f xn tn dt Z
            = Ok (v, f'))
        /\ (forall f, exists v f',
               DerivativeFree.advance f xn tn dt Z = Ok (v, f'))).
Proof.
  split; [|split].
  - intro f. unfold FittedMidpointPredictorCorrectorFdm.advance.
    now rewrite fdiv_zero.
  - intro f. unfold DerivativeFree.advance. cbv zeta.
    rewrite sqrt_0. now rewrite fdiv_zero.
  - intros dt Hdt. split; intro f.
    + unfold FittedMidpointPredictorCorrectorFdm.advance.
      rewrite fdiv_ok by lra. cbn [bind]. eauto.
    + unfold DerivativeFree.advance. cbv zeta.
      rewrite fdiv_ok by (apply Rgt_not_eq, sqrt_lt_R0, Hdt). cbn [bind]. eauto.
Qed.

Lemma advance_with_step_0_witness :
  exists v f',
    DerivativeFree.advance
      {| DerivativeFree.fdmBase := testBase (GBM.as_ISde (testGBM 65));
         DerivativeFree.F1 := 0; DerivativeFree.G1 := 0;
         DerivativeFree.G2 := 0; DerivativeFree.addedVal := 0;
         DerivativeFree.Wincr := 0; DerivativeFree.sqrk := 0 |}
      65 0 0.25 0.5 = Ok (v, f').
Proof.
  apply (proj2 (proj2 (proj2 (advance_with_step_0 65 0 0.5)) 0.25 ltac:(lra))).
Defined.

(** * Further properties of the mediator *)

Section RunEffects.

Context {F G : Type} `{IFdm F} `{IRng G}.

(** What the outer loop leaves in the mediator: the generator [N] draws
    further per simulation, and a buffer of the same length. *)
Lemma sims_final (N : nat) (trips : nat) :
  forall (i : nat) (m m' : MCMediator.t F G) (tr tr' : list MCMediator.call),
    length (MCMediator.res m) = S N ->
    (S N <= length (FdmBase.x (base (MCMediator.fdm m))))%nat ->
    MCMediator.sims trips (Z.of_nat i) m tr = Ok (m', tr') ->
    MCMediator.rng m' = engine_after GenerateRn (trips * N) (MCMediator.rng m)
    /\ length (MCMediator.res m') = S N.
Proof.
  induction trips as [|trips IH]; intros i m m' tr tr' Hres Hx Hrun.
  - injection Hrun as <- _. split; [reflexivity | exact Hres].
  - cbn [MCMediator.sims] in Hrun.
    destruct (MCMediator.res m) as [|old suf] eqn:Eres; [discriminate|].
    injection Hres as Hsuf.
    cbn [Vec.assign bind] in Hrun.
    cbn [MCMediator.res MCMediator.with_res length] in Hrun.
    replace (S (length suf) - 1)%nat with N in Hrun by lia.
    rewrite (steps_spec N 1 (ISde.InitialCondition (MCMediator.sde m)) _ _
               [ISde.InitialCondition (MCMediator.sde m)] suf) in Hrun;
      [ | reflexivity | reflexivity | exact Hsuf | lia | cbn; lia ].
    cbn [bind] in Hrun.
    replace (Z.of_nat i + 1)%Z with (Z.of_nat (S i)) in Hrun by lia.
    apply IH in Hrun as (Hrng & Hlen).
    + cbn in Hrng. split; [|exact Hlen].
      rewrite Hrng. cbn [Nat.mul]. now rewrite engine_after_add.
    + cbn. now rewrite advance_from_length, variates_length.
    + cbn. exact Hx.
Qed.

End RunEffects.

(** X21.  A run draws exactly [N] variates per path from the generator,
    [M * N] in all; its buffer keeps the length [N + 1], and its model and
    its number of simulations are those it was given. *)
Theorem start_draws_M_times_N {F G : Type} `{IFdm F} `{IRng G}
        (m m' : MCMediator.t F G) (tr : list MCMediator.call) :
  let N := Z.to_nat (FdmBase.NT (base (MCMediator.fdm m))) in
  let M := Z.to_nat (MCMediator.NSim m) in
  length (MCMediator.res m) = S N ->
  length (FdmBase.x (base (MCMediator.fdm m))) = S N ->
  MCMediator.start m = Ok (m', tr) ->
  MCMediator.rng m' = engine_after GenerateRn (M * N) (MCMediator.rng m)
  /\ length (MCMediator.res m') = S N
  /\ MCMediator.sde m' = MCMediator.sde m
  /\ MCMediator.NSim m' = MCMediator.NSim m.
Proof.
  intros N M Hres Hx Hstart.
  unfold MCMediator.start in Hstart. inv_ok Hstart.
  destruct a as [m1 tr1]. injection Hstart as <- _.
  pose proof (sims_frame _ _ _ _ _ _ Ha) as (Hf & Hs & Hn).
  change 0%Z with (Z.of_nat 0) in Ha.
  apply (sims_final N) in Ha as (Hrng & Hlen); [|exact Hres|lia].
  repeat split; assumption.
Qed.

Section Returns.

Context {F G : Type} `{IFdm F} `{IRng G}.

(** A mediator whose buffer and grid have the length [N + 1] runs to its
    end, with the trace of the simulations followed by the finish signal. *)
Lemma start_returns (m : MCMediator.t F G) (N : nat) :
  length (MCMediator.res m) = S N ->
  (S N <= length (FdmBase.x (base (MCMediator.fdm m))))%nat ->
  exists m',
    MCMediator.start m
    = Ok (m',
          simulations 0
            (variates_per_path (Z.to_nat (MCMediator.NSim m)) N (MCMediator.rng m))
            (map (generated_path (MCMediator.fdm m)
                    (ISde.InitialCondition (MCMediator.sde m)))
                 (variates_per_path (Z.to_nat (MCMediator.NSim m)) N
                                    (MCMediator.rng m)))
          ++ [MCMediator.finish]).
Proof.
  intros Hres Hx.
  destruct (sims_spec N (Z.to_nat (MCMediator.NSim m)) 0 m [] Hres Hx)
    as (m' & Hsims).
  exists m'. unfold MCMediator.start.
  change (Z.of_nat 0) with 0%Z in Hsims. rewrite Hsims. reflexivity.
Qed.

End Returns.

Lemma start_draws_M_times_N_witness :
  exists m' tr,
    @MCMediator.start _ _ _ (tape_rng (fun _ => 0))
      {| MCMediator.sde := GBM.as_ISde (testGBM 65);
         MCMediator.fdm
           := {| EulerFdm.fdmBase := testBase (GBM.as_ISde (testGBM 65)) |};
         MCMediator.rng := 0%nat;
         MCMediator.NSim := 3;
         MCMediator.res := [0; 0; 0] |} = Ok (m', tr)
    /\ MCMediator.rng m' = 6%nat.
Proof.
  destruct (@start_returns _ _ _ (tape_rng (fun _ => 0))
              {| MCMediator.sde := GBM.as_ISde (testGBM 65);
                 MCMediator.fdm
                   := {| EulerFdm.fdmBase := testBase (GBM.as_ISde (testGBM 65)) |};
                 MCMediator.rng := 0%nat;
                 MCMediator.NSim := 3;
                 MCMediator.res := [0; 0; 0] |} 2)
    as (m' & Hstart); [reflexivity | cbn; lia |].
  eexists m', _. split; [exact Hstart|].
  apply (@start_draws_M_times_N _ _ _ (tape_rng (fun _ => 0))) in Hstart
    as (Hrng & _); [|reflexivity|reflexivity].
  rewrite Hrng. reflexivity.
Defined.

(** ** The mediator feeding the builder's pricer *)

Lemma deliver_draws (zs : list R) (rest : list MCMediator.call)
      (op : EuropeanPricer.t) :
  MCBuilder.deliver (map MCMediator.rng_GenerateRn zs ++ rest) op
  = MCBuilder.deliver rest op.
Proof. induction zs as [|z zs IH]; [reflexivity | exact IH]. Qed.

Lemma deliver_simulations (zss : list (list R)) :
  forall (ps : list Vec.t) (i : nat) (rest : list MCMediator.call)
         (op : EuropeanPricer.t),
    length ps = length zss ->
    MCBuilder.deliver (simulations i zss ps ++ rest) op
    = (let* op' := process_all op ps in MCBuilder.deliver rest op').
Proof.
  induction zss as [|zs zss IH]; intros ps i rest op Hlen.
  - destruct ps; [reflexivity | discriminate].
  - destruct ps as [|p ps]; [discriminate|]. injection Hlen as Hlen.
    cbn [simulations process_all]. unfold simulation.
    rewrite <- !app_assoc.
    assert (Hmis : forall tr,
               MCBuilder.deliver
                 ((if (Z.of_nat i mod 100 =? 0)%Z
                   then [MCMediator.mis (Z.of_nat i)] else []) ++ tr) op
               = MCBuilder.deliver tr op)
      by (intro tr; destruct (_ =? _)%Z; reflexivity).
    rewrite Hmis, deliver_draws. cbn [app MCBuilder.deliver].
    unfold MCBuilder.f1.
    destruct (ProcessPath op p) as [op'|e]; cbn [bind]; [|reflexivity].
    now apply IH.
Qed.

(** X22.  A run of the mediator wired to the builder's pricer ends with the
    Vanilla price of the generated paths: the discounted mean of the payoffs
    of their last values.  A run of no path ends in the division by zero of
    [PostProcess]. *)
Theorem run_prices_generated_paths {F G : Type} `{IFdm F} `{IRng G}
        (sde : ISde.t) (fdm : F) (rng : G) (NSim : Z)
        (payoff : R -> R) (discounter : unit -> R) :
  let N := Z.to_nat (FdmBase.NT (base fdm)) in
  let M := Z.to_nat NSim in
  let ps := map (generated_path fdm (ISde.InitialCondition sde))
                (variates_per_path M N rng) in
  (0 <= FdmBase.NT (base fdm))%Z ->
  length (FdmBase.x (base fdm)) = S N ->
  exists (m m' : MCMediator.t F G) (tr : list MCMediator.call),
    MCMediator.ctor (sde, fdm, rng) NSim = Ok m
    /\ MCMediator.start m = Ok (m', tr)
    /\ ((1 <= NSim)%Z ->
        exists op,
          MCBuilder.deliver tr (MCBuilder.InitializePricer payoff discounter)
          = Ok op
          /\ Price op
             = discounter tt * Rsum (map (fun p => payoff (last p 0)) ps)
               / INR M)
    /\ ((NSim <= 0)%Z ->
        MCBuilder.deliver tr (MCBuilder.InitializePricer payoff discounter)
        = Err DivisionByZero).
Proof.
  intros N M ps HNT Hx.
  set (m := {| MCMediator.sde := sde; MCMediator.fdm := fdm;
               MCMediator.rng := rng; MCMediator.NSim := NSim;
               MCMediator.res := repeat 0 (S N) |}).
  assert (Hctor : MCMediator.ctor (sde, fdm, rng) NSim = Ok m).
  { unfold MCMediator.ctor, Vec.resize.
    destruct (Z.ltb_spec (FdmBase.NT (base fdm) + 1) 0) as [|_]; [lia|].
    cbn [bind]. unfold m, N. do 3 f_equal. lia. }
  destruct (start_returns m N) as (m' & Hstart);
    [apply repeat_length | cbn; lia |].
  cbn [MCMediator.NSim MCMediator.rng MCMediator.fdm MCMediator.sde m] in Hstart.
  fold M in Hstart. fold ps in Hstart.
  assert (Hlen : length ps = M)
    by (unfold ps; now rewrite length_map, variates_per_path_length).
  assert (Hzlen : length ps = length (variates_per_path M N rng))
    by (unfold ps; now rewrite length_map).
  assert (HF : Forall (fun path => path <> []) ps).
  { unfold ps. apply Forall_forall. intros p Hp.
    apply in_map_iff in Hp as (zs & <- & _). discriminate. }
  clearbody ps.
  eexists m, m', _. split; [exact Hctor|]. split; [exact Hstart|].
  rewrite (deliver_simulations _ ps 0 [MCMediator.finish] _ Hzlen).
  unfold MCBuilder.InitializePricer.
  assert (Hsum : EuropeanPricer.sum (EuropeanPricer.ctor payoff discounter) = 0)
    by (cbn; lra).
  destruct (estimator EuropeanPricer.sum EuropeanPricer.NSim
              (fun p path => EuropeanPricer.m_payoff p (last path 0)) OutOfBounds
              European_step (fun p => eq_refl) European_finalize
              (EuropeanPricer.ctor payoff discounter) ps Hsum eq_refl)
    as (_ & Hnil & Hok).
  unfold finalized_price in Hnil, Hok.
  split.
  - intro HM.
    assert (Hne : ps <> [])
      by (intros E; rewrite E in Hlen; simpl in Hlen; lia).
    specialize (Hok Hne HF). rewrite Hlen in Hok.
    destruct (process_all (EuropeanPricer.ctor payoff discounter) ps)
      as [p|e]; cbn [bind] in *; [|discriminate].
    cbn [MCBuilder.deliver]. unfold MCBuilder.f2.
    destruct (PostProcess p) as [p'|e]; cbn [bind] in *; [|discriminate].
    exists p'. split; [reflexivity|]. now injection Hok.
  - intro HM.
    assert (Hnil' : ps = []).
    { destruct ps; [reflexivity | simpl in Hlen; lia]. }
    specialize (Hnil Hnil'). subst ps. cbn [process_all bind] in *.
    cbn [MCBuilder.deliver]. unfold MCBuilder.f2.
    destruct (PostProcess (EuropeanPricer.ctor payoff discounter)) as [q|e];
      cbn [bind] in *; [discriminate | now injection Hnil as ->].
Qed.

Lemma run_prices_generated_paths_witness :
  exists (m m' : MCMediator.t EulerFdm.t nat) (tr : list MCMediator.call),
    MCMediator.ctor
      (GBM.as_ISde (testGBM 65),
       {| EulerFdm.fdmBase := testBase (GBM.as_ISde (testGBM 65)) |},
       0%nat) 3 = Ok m
    /\ @MCMediator.start _ _ _ (tape_rng (fun _ => 0)) m = Ok (m', tr)
    /\ exists op,
        MCBuilder.deliver
          tr (MCBuilder.InitializePricer (OptionData.getPayOff testOption)
                                         (OptionData.getDiscounter testOption))
        = Ok op.
Proof.
  destruct (@run_prices_generated_paths _ _ _ (tape_rng (fun _ => 0))
              (GBM.as_ISde (testGBM 65))
              {| EulerFdm.fdmBase := testBase (GBM.as_ISde (testGBM 65)) |}
              0%nat 3 (OptionData.getPayOff testOption)
              (OptionData.getDiscounter testOption))
    as (m & m' & tr & Hctor & Hstart & Hprice & _).
  - simpl. lia.
  - reflexivity.
  - exists m, m', tr. split; [exact Hctor|]. split; [exact Hstart|].
    destruct Hprice as (op & Hop & _); [lia|]. now exists op.
Defined.

(** * Properties of the generators *)

Lemma Rleb_true (x y : R) : Rleb x y = true <-> x <= y.
Proof.
  unfold Rleb. destruct (Rle_dec x y); split; intro; try easy.
Qed.

Lemma Rleb_false (x y : R) : Rleb x y = false <-> y < x.
Proof.
  unfold Rleb. destruct (Rle_dec x y); split; intro; try easy; lra.
Qed.

Lemma variate_SS {E : Type} (dist : E -> R * E) (n : nat) (e : E) :
  variate dist (S (S n)) e = variate dist n (snd (dist (snd (dist e)))).
Proof. reflexivity. Qed.

Section BoxMuller.

Context {E : Type} (dist : E -> R * E).

(** X23.  The Box-Muller generator draws its uniforms two by two and returns at
    the first pair [j] whose first uniform is positive: a bound of more
    than [j] rounds is enough, [2 (j + 1)] uniforms have been drawn, and the
    logarithm is taken of a positive number.  When that uniform is at most 1
    the square root is taken of a non-negative number, which bounds the
    variate in absolute value. *)
Theorem BoxMuller_returns (j : nat) :
  forall (g : BoxMullerNet.t E) (fuel : nat),
    (forall i, (i < j)%nat -> variate dist (2 * i) (BoxMullerNet.rng g) <= 0) ->
    0 < variate dist (2 * j) (BoxMullerNet.rng g) ->
    (j < fuel)%nat ->
    let u1 := variate dist (2 * j) (BoxMullerNet.rng g) in
    let u2 := variate dist (2 * j + 1) (BoxMullerNet.rng g) in
    BoxMullerNet.GenerateRn dist fuel g
    = Some (sqrt (-2 * ln u1) * cos (2 * 3.1415159 * u2),
            {| BoxMullerNet.rng
                 := engine_after dist (2 * (j + 1)) (BoxMullerNet.rng g);
               BoxMullerNet.U1 := u1; BoxMullerNet.U2 := u2 |})
    /\ (u1 <= 1 ->
        0 <= -2 * ln u1
        /\ Rabs (sqrt (-2 * ln u1) * cos (2 * 3.1415159 * u2))
           <= sqrt (-2 * ln u1)).
Proof.
  induction j as [|j IH]; intros g fuel Hrej Hacc Hfuel u1 u2.
  - split.
    + destruct fuel as [|fuel]; [lia|]. cbn [BoxMullerNet.GenerateRn].
      unfold u1, u2, variate in *. cbn [Nat.mul Nat.add engine_after] in *.
      destruct (dist (BoxMullerNet.rng g)) as [a e1]. cbn [fst snd] in *.
      destruct (dist e1) as [b e2]. cbn [fst snd].
      rewrite (proj2 (Rleb_false a 0.0)) by lra.
      replace (-2.0) with (-2) by lra. replace 2.0 with 2 by lra.
      reflexivity.
    + intro Hle.
      assert (Hpos : 0 < u1) by exact Hacc.
      clearbody u1 u2.
      assert (Hln : ln u1 <= 0).
      { rewrite <- ln_1. destruct (Req_dec u1 1) as [->|Hne]; [apply Rle_refl|].
        apply Rlt_le, ln_increasing; lra. }
      split; [lra|].
      rewrite Rabs_mult, (Rabs_pos_eq (sqrt _)) by apply sqrt_pos.
      rewrite <- (Rmult_1_r (sqrt (-2 * ln u1))) at 2.
      apply Rmult_le_compat_l; [apply sqrt_pos|].
      apply Rabs_le, COS_bound.
  - destruct fuel as [|fuel]; [lia|].
    assert (H0 : variate dist 0 (BoxMullerNet.rng g) <= 0)
      by (apply (Hrej 0%nat); lia).
    unfold u1, u2. clear u1 u2.
    replace (2 * S j)%nat with (S (S (2 * j))) in * by lia.
    replace (S (S (2 * j)) + 1)%nat with (S (S (2 * j + 1))) in * by lia.
    replace (2 * (S j + 1))%nat with (S (S (2 * (j + 1)))) by lia.
    rewrite !variate_SS. rewrite variate_SS in Hacc.
    cbn [BoxMullerNet.GenerateRn engine_after].
    unfold variate in H0. cbn [engine_after] in H0.
    destruct (dist (BoxMullerNet.rng g)) as [a e1] eqn:Ha. cbn [fst snd] in *.
    destruct (dist e1) as [b e2] eqn:Hb. cbn [fst snd] in *.
    rewrite (proj2 (Rleb_true a 0.0)) by lra.
    apply (IH {| BoxMullerNet.rng := e2;
                 BoxMullerNet.U1 := a; BoxMullerNet.U2 := b |} fuel).
    + intros i Hi. cbn [BoxMullerNet.rng].
      specialize (Hrej (S i) ltac:(lia)).
      replace (2 * S i)%nat with (S (S (2 * i))) in Hrej by lia.
      rewrite variate_SS, Ha in Hrej. cbn [snd] in Hrej.
      now rewrite Hb in Hrej.
    + exact Hacc.
    + lia.
Qed.

End BoxMuller.

Lemma BoxMuller_returns_witness :
  BoxMullerNet.GenerateRn
    (tape_dist (fun n => if Nat.ltb n 2 then 0 else 0.5)) 5
    (BoxMullerNet.ctor 0%nat)
  = Some (sqrt (-2 * ln 0.5) * cos (2 * 3.1415159 * 0.5),
          {| BoxMullerNet.rng := 4%nat;
             BoxMullerNet.U1 := 0.5; BoxMullerNet.U2 := 0.5 |}).
Proof.
  apply (BoxMuller_returns (tape_dist (fun n => if Nat.ltb n 2 then 0 else 0.5))
           1 (BoxMullerNet.ctor 0%nat) 5).
  - intros i Hi. assert (i = 0)%nat as -> by lia. cbn. lra.
  - cbn. lra.
  - lia.
Defined.

Lemma polar_u_SS {E : Type} (dist : E -> R * E) (n : nat) (e : E) :
  polar_u dist (S (S n)) e = polar_u dist n (snd (dist (snd (dist e)))).
Proof. reflexivity. Qed.

Lemma polar_S_S {E : Type} (dist : E -> R * E) (i : nat) (e : E) :
  polar_S dist (S i) e = polar_S dist i (snd (dist (snd (dist e)))).
Proof.
  unfold polar_S.
  replace (2 * S i)%nat with (S (S (2 * i))) by lia.
  replace (S (S (2 * i)) + 1)%nat with (S (S (2 * i + 1))) by lia.
  now rewrite !polar_u_SS.
Qed.

Section PolarMarsaglia.

Context {E : Type} (dist : E -> R * E).

(** X24.  The polar generator draws its uniforms two by two and returns at the
    first pair [j] whose squared radius [S] lies in (0, 1]: a bound of more
    than [j] rounds is enough and [2 (j + 1)] uniforms have been drawn.  The
    division by [S] is then defined, the square root is taken of a
    non-negative number, and the variate is at most that square root in
    absolute value, [u] being at most 1. *)
Theorem PolarMarsaglia_returns (j : nat) :
  forall (g : PolarMarsagliaNet.t E) (fuel : nat),
    (forall i, (i < j)%nat ->
       1 < polar_S dist i (PolarMarsagliaNet.rng g)
       \/ polar_S dist i (PolarMarsagliaNet.rng g) <= 0) ->
    0 < polar_S dist j (PolarMarsagliaNet.rng g) <= 1 ->
    (j < fuel)%nat ->
    let u := polar_u dist (2 * j) (PolarMarsagliaNet.rng g) in
    let S := polar_S dist j (PolarMarsagliaNet.rng g) in
    PolarMarsagliaNet.GenerateRn dist fuel g
    = Some (Ok (u * sqrt (-2 * ln S / S),
                {| PolarMarsagliaNet.rng
                     := engine_after dist (2 * (j + 1))
                          (PolarMarsagliaNet.rng g) |}))
    /\ 0 <= -2 * ln S / S
    /\ Rabs (u * sqrt (-2 * ln S / S)) <= sqrt (-2 * ln S / S).
Proof.
  induction j as [|j IH]; intros g fuel Hrej Hacc Hfuel u S.
  - assert (HS : 0 < S <= 1) by exact Hacc.
    assert (Hu : u * u <= S).
    { unfold S, polar_S, u. cbn [Nat.mul Nat.add].
      generalize (polar_u dist 0 (PolarMarsagliaNet.rng g)).
      generalize (polar_u dist 1 (PolarMarsagliaNet.rng g)).
      intros b a. nra. }
    assert (Hgen : PolarMarsagliaNet.GenerateRn dist fuel g
                   = Some (Ok (u * sqrt (-2 * ln S / S),
                     {| PolarMarsagliaNet.rng
                          := engine_after dist (2 * (0 + 1))
                               (PolarMarsagliaNet.rng g) |}))).
    { destruct fuel as [|fuel]; [lia|]. cbn [PolarMarsagliaNet.GenerateRn].
      unfold S, u, polar_S, polar_u, variate in *.
      cbn [Nat.mul Nat.add engine_after] in *.
      destruct (dist (PolarMarsagliaNet.rng g)) as [a e1]. cbn [fst snd] in *.
      destruct (dist e1) as [b e2]. cbn [fst snd] in *.
      match goal with
      | |- context [Rgtb ?s 1.0] =>
          assert (Hgt : Rgtb s 1.0 = false)
            by (unfold Rgtb; destruct (Rgt_dec s 1.0); [lra|reflexivity]);
          rewrite Hgt, (proj2 (Rleb_false s 0.0)) by lra
      end.
      cbn [orb]. rewrite fdiv_ok by lra. cbn [bind].
      replace (-2.0) with (-2) by lra. reflexivity. }
    clearbody u S.
    assert (Hln : ln S <= 0).
    { rewrite <- ln_1. destruct (Req_dec S 1) as [->|Hne]; [apply Rle_refl|].
      apply Rlt_le, ln_increasing; lra. }
    assert (Hq : 0 <= -2 * ln S / S).
    { apply Rmult_le_pos; [lra|]. apply Rlt_le, Rinv_0_lt_compat; lra. }
    split; [exact Hgen|]. split; [exact Hq|].
    assert (Hu1 : Rabs u <= 1) by (apply Rabs_le; split; nra).
    rewrite Rabs_mult, (Rabs_pos_eq (sqrt _)) by apply sqrt_pos.
    rewrite <- (Rmult_1_l (sqrt (-2 * ln S / S))) at 2.
    apply Rmult_le_compat_r; [apply sqrt_pos | exact Hu1].
  - destruct fuel as [|fuel]; [lia|].
    assert (H0 : 1 < polar_S dist 0 (PolarMarsagliaNet.rng g)
                 \/ polar_S dist 0 (PolarMarsagliaNet.rng g) <= 0)
      by (apply (Hrej 0%nat); lia).
    unfold u, S. clear u S.
    replace (2 * S j)%nat with (S (S (2 * j))) by lia.
    replace (2 * (S j + 1))%nat with (S (S (2 * (j + 1)))) by lia.
    rewrite polar_u_SS, polar_S_S. rewrite polar_S_S in Hacc.
    cbn [PolarMarsagliaNet.GenerateRn engine_after].
    unfold polar_S, polar_u, variate in H0.
    cbn [Nat.mul Nat.add engine_after] in H0.
    destruct (dist (PolarMarsagliaNet.rng g)) as [a e1] eqn:Ha.
    cbn [fst snd] in *.
    destruct (dist e1) as [b e2] eqn:Hb. cbn [fst snd] in *.
    match goal with
    | |- context [Rgtb ?s 1.0 || Rleb ?s 0.0] =>
        assert (Hrj : Rgtb s 1.0 || Rleb s 0.0 = true)
    end.
    { destruct H0 as [H0|H0].
      - rewrite (proj2 (Rgtb_true _ _)) by lra. reflexivity.
      - rewrite (proj2 (Rleb_true _ _)) by lra. apply orb_true_r. }
    rewrite Hrj.
    apply (IH {| PolarMarsagliaNet.rng := e2 |} fuel).
    + intros i Hi. cbn [PolarMarsagliaNet.rng].
      specialize (Hrej (S i) ltac:(lia)).
      rewrite polar_S_S, Ha in Hrej. cbn [snd] in Hrej.
      now rewrite Hb in Hrej.
    + exact Hacc.
    + lia.
Qed.

End PolarMarsaglia.

Lemma PolarMarsaglia_returns_witness :
  PolarMarsagliaNet.GenerateRn
    (tape_dist (fun n => if Nat.ltb n 2 then 1 else 0.75)) 5
    (PolarMarsagliaNet.ctor 0%nat)
  = Some (Ok ((2.0 * 0.75 - 1.0)
              * sqrt (-2 * ln (polar_S (tape_dist
                   (fun n => if Nat.ltb n 2 then 1 else 0.75)) 1 0%nat)
                      / polar_S (tape_dist
                   (fun n => if Nat.ltb n 2 then 1 else 0.75)) 1 0%nat),
              {| PolarMarsagliaNet.rng := 4%nat |})).
Proof.
  apply (PolarMarsaglia_returns
           (tape_dist (fun n => if Nat.ltb n 2 then 1 else 0.75))
           1 (PolarMarsagliaNet.ctor 0%nat) 5).
  - intros i Hi. assert (i = 0)%nat as -> by lia. left.
    unfold polar_S, polar_u, variate. cbn. lra.
  - unfold polar_S, polar_u, variate. cbn. lra.
  - lia.
Defined.

(** * The progress signals of a run *)

Ltac div100 :=
  repeat match goal with
  | |- context [(?a / 100)%nat] =>
      let q := fresh "q" in let r := fresh "r" in
      pose proof (Nat.div_mod_eq a 100);
      pose proof (Nat.mod_upper_bound a 100 ltac:(discriminate));
      generalize dependent (a mod 100)%nat; intro r;
      generalize dependent (a / 100)%nat; intros q; intros
  end;
  Z.to_euclidean_division_equations; lia.

Lemma multiples_of_100 (M : nat) :
  filter (fun j => (Z.of_nat j mod 100 =? 0)%Z) (seq 0 M)
  = map (fun k => (100 * k)%nat) (seq 0 ((M + 99) / 100)).
Proof.
  induction M as [|M IH]; [reflexivity|].
  rewrite seq_S, filter_app, IH, Nat.add_0_l. cbn [filter]. clear IH.
  destruct (Z.eqb_spec (Z.of_nat M mod 100) 0) as [Hm|Hm].
  - replace ((S M + 99) / 100)%nat with (S ((M + 99) / 100)).
    + rewrite seq_S, map_app, Nat.add_0_l. cbn [map]. f_equal. f_equal.
      div100.
    + div100.
  - rewrite app_nil_r. do 2 f_equal. div100.
Qed.

Lemma simulations_mis (zss : list (list R)) :
  forall (ps : list Vec.t) (i : nat),
    length ps = length zss ->
    filter is_mis (simulations i zss ps)
    = map (fun j => MCMediator.mis (Z.of_nat j))
          (filter (fun j => (Z.of_nat j mod 100 =? 0)%Z)
                  (seq i (length zss))).
Proof.
  induction zss as [|zs zss IH]; intros ps i Hlen; [reflexivity|].
  destruct ps as [|p ps]; [discriminate|]. injection Hlen as Hlen.
  cbn [simulations length seq filter]. unfold simulation.
  rewrite !filter_app, (IH ps (S i) Hlen).
  assert (Hz : filter is_mis (map MCMediator.rng_GenerateRn zs) = []).
  { clear. induction zs; simpl; auto. }
  rewrite Hz. destruct (_ =? _)%Z; reflexivity.
Qed.

(** X25.  The progress signals of a run of [M] simulations are those of the
    simulations 0, 100, 200, ..., in this order: one for every hundred
    simulations started, so none when [M <= 0] and [ceil (M / 100)]
    otherwise. *)
Theorem start_progress_signals {F G : Type} `{IFdm F} `{IRng G}
        (m m' : MCMediator.t F G) (tr : list MCMediator.call) (N : nat) :
  length (MCMediator.res m) = S N ->
  (S N <= length (FdmBase.x (base (MCMediator.fdm m))))%nat ->
  MCMediator.start m = Ok (m', tr) ->
  filter is_mis tr
  = map (fun k => MCMediator.mis (100 * Z.of_nat k))
        (seq 0 ((Z.to_nat (MCMediator.NSim m) + 99) / 100)).
Proof.
  intros Hres Hx Hstart.
  destruct (start_returns m N Hres Hx) as (m1 & Hm1).
  rewrite Hm1 in Hstart. injection Hstart as _ <-.
  rewrite filter_app. cbn [filter is_mis]. rewrite app_nil_r.
  rewrite simulations_mis
    by now rewrite length_map.
  rewrite variates_per_path_length, multiples_of_100, map_map.
  apply map_ext. intro k. f_equal. lia.
Qed.

Lemma start_progress_signals_witness :
  exists m' tr,
    @MCMediator.start _ _ _ (tape_rng (fun _ => 0))
      {| MCMediator.sde := GBM.as_ISde (testGBM 65);
         MCMediator.fdm
           := {| EulerFdm.fdmBase := testBase (GBM.as_ISde (testGBM 65)) |};
         MCMediator.rng := 0%nat;
         MCMediator.NSim := 250;
         MCMediator.res := [0; 0; 0] |} = Ok (m', tr)
    /\ filter is_mis tr
       = [MCMediator.mis 0; MCMediator.mis 100; MCMediator.mis 200].
Proof.
  destruct (@start_returns _ _ _ (tape_rng (fun _ => 0))
              {| MCMediator.sde := GBM.as_ISde (testGBM 65);
                 MCMediator.fdm
                   := {| EulerFdm.fdmBase := testBase (GBM.as_ISde (testGBM 65)) |};
                 MCMediator.rng := 0%nat;
                 MCMediator.NSim := 250;
                 MCMediator.res := [0; 0; 0] |} 2)
    as (m' & Hstart); [reflexivity | cbn; lia |].
  eexists m', _. split; [exact Hstart|].
  rewrite (fun H1 H2 => @start_progress_signals _ _ _ (tape_rng (fun _ => 0))
                          _ _ _ 2 H1 H2 Hstart);
    [reflexivity | reflexivity | cbn; lia].
Defined.
